(** * Dorios RPG Core: the chest loot injector

    A shallow embedding of [ChestLootInjector] (the structure registry, the
    region-partitioned chest tracking store, the structure classifier, the
    loot resolver, the injector and [resolve]) and the properties its
    specification states about it.

    Conventions of the embedding.
    - Block coordinates are integers ([Z]).  A template literal [`${n}`] of an
      integer is its decimal numeral, stdpp's [pretty]; [Math.floor (n / 256)]
      of an integer is [n `div` 256].
    - Chances and random draws are JavaScript numbers: binary64 floats,
      Rocq's primitive [float].  [+], [>] and [<=] are [PrimFloat.add],
      [PrimFloat.ltb] (arguments swapped) and [PrimFloat.leb], with their
      rounding and their NaN.
    - [structures], [structureLoot] and [biomeLoot] are plain objects.  A
      lookup [obj[id]] finds the own property [id] or else the property
      [Object.prototype] has under that name; [Object.entries] lists the own
      properties, those whose name is an array index first, in ascending
      order, then the others in insertion order.
    - Dimension and biome ids come from the host and are namespaced
      identifiers such as ["minecraft:desert"], never inherited names.
    - The host world is explicit state: dynamic properties, container
      inventories and the stream of [Math.random] draws.  A dynamic property
      written by [saveChestSet] holds [JSON.stringify set]; it is represented
      by the object it denotes, since [getChestSet] reads it back through
      [JSON.parse].  An object of type [{[key: string]: 1}] is the set of its
      keys. *)

From Stdlib Require Import Ascii Floats.
From stdpp Require Import base numbers strings pretty list option countable
  gmap fin_maps fin_sets sorting.

Open Scope Z_scope.
Open Scope string_scope.
Set Warnings "-inexact-float".

(** ** Positions and keys *)

Record Vector3 := mkPos { pos_x : Z; pos_y : Z; pos_z : Z }.

Global Instance Vector3_eq_dec : EqDecision Vector3.
Proof. solve_decision. Defined.

Global Instance Vector3_countable : Countable Vector3.
Proof.
  apply (inj_countable' (fun p => (pos_x p, pos_y p, pos_z p))
                        (fun t => mkPos t.1.1 t.1.2 t.2)).
  by intros [].
Defined.

Definition PLACED_CHESTS_KEY : string := "dorios:placed_chests".
Definition OPENED_CHESTS_KEY : string := "dorios:opened_chests".
Definition REGION_SIZE : Z := 256.

Definition posKey (pos : Vector3) : string :=
  pretty (pos_x pos) +:+ "," +:+ pretty (pos_y pos) +:+ "," +:+ pretty (pos_z pos).

Definition regionKey (pos : Vector3) : string :=
  let rx := pos_x pos `div` REGION_SIZE in
  let rz := pos_z pos `div` REGION_SIZE in
  pretty rx +:+ "," +:+ pretty rz.

Definition regionPropertyKey (baseKey : string) (pos : Vector3) : string :=
  baseKey +:+ ":" +:+ regionKey pos.

(** The region a position lies in, as the pair of integers [regionKey]
    prints. *)
Definition region_of (pos : Vector3) : Z * Z :=
  (pos_x pos `div` 256, pos_z pos `div` 256).

(** A string without the field separator of the keys. *)
Fixpoint comma_free (s : string) : bool :=
  match s with
  | EmptyString => true
  | String c r => negb (Ascii.eqb c ","%char) && comma_free r
  end.


(** ** The host world

    [@minecraft/server] as the injector uses it: world-scoped dynamic
    properties, blocks and biomes of a dimension, the inventory component of a
    block, and [Math.random]. *)

Record ItemStack := mkItemStack { item_typeId : string; item_amount : Z }.

Record Dimension := mkDimension {
  dim_id : string;
  getBlock : Vector3 → option string;   (* typeId of the block, if loaded *)
  getBiome : Vector3 → string           (* id of the biome *)
}.

Record Block := mkBlock {
  block_typeId : string;
  dimension : Dimension;
  location : Vector3
}.

Record World := mkWorld {
  dynamicProperties : gmap string (gset string);
  containers : gmap (string * Vector3) (list ItemStack);
  randomDraws : nat → float;
  randomCursor : nat
}.

(** Host calls read and write the world: a state monad. *)
Definition Host (A : Type) : Type := World → A * World.

Definition ret {A} (a : A) : Host A := fun w => (a, w).

Definition bind {A B} (m : Host A) (k : A → Host B) : Host B :=
  fun w => k (m w).1 (m w).2.

Notation "'do' x <- m ; k" := (bind m (fun x => k))
  (at level 10, x name, m at level 100, k at level 200).
Notation "m ;; k" := (bind m (fun _ => k))
  (at level 100, k at level 200, right associativity).

(** [for (const a of l) body a] *)
Fixpoint for_of {A} (l : list A) (body : A → Host unit) : Host unit :=
  match l with
  | [] => ret tt
  | a :: l' => body a ;; for_of l' body
  end.

Definition getDynamicProperty (key : string) : Host (option (gset string)) :=
  fun w => (dynamicProperties w !! key, w).

(** [setDynamicProperty (key, undefined)] deletes the property. *)
Definition setDynamicProperty (key : string) (value : option (gset string))
  : Host unit :=
  fun w =>
    (tt, mkWorld (match value with
                  | Some v => <[key := v]> (dynamicProperties w)
                  | None => delete key (dynamicProperties w)
                  end)
                 (containers w) (randomDraws w) (randomCursor w)).

Definition getDynamicPropertyIds : Host (list string) :=
  fun w => ((map_to_list (dynamicProperties w)).*1, w).

Definition Math_random : Host float :=
  fun w => (randomDraws w (randomCursor w),
            mkWorld (dynamicProperties w) (containers w) (randomDraws w)
                    (S (randomCursor w))).

(** [block.getComponent ("minecraft:inventory")?.container]: the handle of
    the block's container, when it has one. *)
Definition getContainer (block : Block) : Host (option (string * Vector3)) :=
  fun w =>
    let h := (dim_id (dimension block), location block) in
    (match containers w !! h with Some _ => Some h | None => None end, w).

Definition addItem (h : string * Vector3) (stack : ItemStack) : Host unit :=
  fun w =>
    (tt, mkWorld (dynamicProperties w)
                 (alter (fun inv => (inv ++ [stack])%list) h (containers w))
                 (randomDraws w) (randomCursor w)).

(** ** Region store *)

Definition getChestSet (baseKey : string) (pos : Vector3) : Host (gset string) :=
  let key := regionPropertyKey baseKey pos in
  do raw <- getDynamicProperty key;
  ret (match raw with Some set => set | None => ∅ end).

Definition saveChestSet (baseKey : string) (pos : Vector3) (set : gset string)
  : Host unit :=
  let key := regionPropertyKey baseKey pos in
  setDynamicProperty key (Some set).

Definition canInjectChest (block : Block) : Host bool :=
  let pos := location block in
  let key := posKey pos in
  do placed <- getChestSet PLACED_CHESTS_KEY pos;
  if bool_decide (key ∈ placed) then ret false else
  do opened <- getChestSet OPENED_CHESTS_KEY pos;
  if bool_decide (key ∈ opened) then ret false else
  ret true.

Definition markChestOpened (block : Block) : Host unit :=
  let pos := location block in
  let key := posKey pos in
  do opened <- getChestSet OPENED_CHESTS_KEY pos;
  let opened := {[key]} ∪ opened in
  saveChestSet OPENED_CHESTS_KEY pos opened.

Definition markChestPlaced (block : Block) : Host unit :=
  let pos := location block in
  let key := posKey pos in
  do placed <- getChestSet PLACED_CHESTS_KEY pos;
  let placed := {[key]} ∪ placed in
  saveChestSet PLACED_CHESTS_KEY pos placed.

Definition resetChestTracking : Host unit :=
  do ids <- getDynamicPropertyIds;
  for_of ids (fun id =>
    if String.prefix PLACED_CHESTS_KEY id || String.prefix OPENED_CHESTS_KEY id
    then setDynamicProperty id None
    else ret tt).

(** The regional set of one tracking kind a position belongs to, as stored in
    a world. *)
Definition chestSet (baseKey : string) (pos : Vector3) (w : World) : gset string :=
  default ∅ (dynamicProperties w !! regionPropertyKey baseKey pos).

(** The placement and interaction events that mark chests. *)
Inductive TrackingEvent :=
  | MarkOpened (block : Block)
  | MarkPlaced (block : Block).

Definition event_location (e : TrackingEvent) : Vector3 :=
  match e with MarkOpened b | MarkPlaced b => location b end.

Definition play (e : TrackingEvent) : Host unit :=
  match e with
  | MarkOpened b => markChestOpened b
  | MarkPlaced b => markChestPlaced b
  end.

(** [n] successive eligibility reads. *)
Definition reads (block : Block) (n : nat) (w : World) : World :=
  Nat.iter n (fun w' => (canInjectChest block w').2) w.

(** The keys [resetChestTracking] deletes. *)
Definition tracking_key (id : string) : bool :=
  String.prefix PLACED_CHESTS_KEY id || String.prefix OPENED_CHESTS_KEY id.

(** ** JavaScript [Map]s whose iteration order is observed

    A [Map] iterates in insertion order, and [set] on a key that is present
    replaces the value in place. *)

Definition JsMap (V : Type) : Type := list (string * V).

Fixpoint Map_get {V} (key : string) (m : JsMap V) : option V :=
  match m with
  | [] => None
  | (k, v) :: m' => if decide (k = key) then Some v else Map_get key m'
  end.

Fixpoint Map_set {V} (key : string) (value : V) (m : JsMap V) : JsMap V :=
  match m with
  | [] => [(key, value)]
  | (k, v) :: m' =>
      if decide (k = key) then (key, value) :: m' else (k, v) :: Map_set key value m'
  end.

Definition Map_size {V} (m : JsMap V) : nat := length m.

Definition Map_values {V} (m : JsMap V) : list V := m.*2.

(** ** Plain objects used as tables

    The property names every plain object inherits from [Object.prototype];
    their values are functions, or the prototype itself for ["__proto__"]:
    truthy, and not iterable. *)
Definition inherited (name : string) : bool :=
  bool_decide (name ∈ ["constructor"; "__defineGetter__"; "__defineSetter__";
                        "hasOwnProperty"; "__lookupGetter__"; "__lookupSetter__";
                        "isPrototypeOf"; "propertyIsEnumerable"; "toString";
                        "valueOf"; "__proto__"; "toLocaleString"]).

Definition digit_of (c : ascii) : option N :=
  let n := N_of_ascii c in
  if decide (48 <= n <= 57)%N then Some (n - 48)%N else None.

Fixpoint digits (s : string) (acc : N) : option N :=
  match s with
  | EmptyString => Some acc
  | String c r =>
      match digit_of c with
      | Some d => digits r (10 * acc + d)%N
      | None => None
      end
  end.

(** A property name is an array index when it is the canonical numeral of an
    integer below 2^32 - 1. *)
Definition array_index (name : string) : option N :=
  match name with
  | EmptyString => None
  | _ =>
      match digits name 0 with
      | Some n => if decide (pretty n = name ∧ (n < 4294967295)%N) then Some n else None
      | None => None
      end
  end.

Fixpoint insert_by_index {A} (n : N) (a : A) (l : list (N * A)) : list (N * A) :=
  match l with
  | [] => [(n, a)]
  | (m, b) :: l' =>
      if decide (n < m)%N then (n, a) :: l else (m, b) :: insert_by_index n a l'
  end.

(** The own properties named by an array index, in ascending order. *)
Definition index_entries {V} (table : list (string * V)) : list (N * (string * V)) :=
  foldr (fun entry acc =>
           match array_index entry.1 with
           | Some n => insert_by_index n entry acc
           | None => acc
           end) [] table.

(** [Object.entries (obj)] of an object whose own properties, in insertion
    order, are [table]. *)
Definition Object_entries {V} (table : list (string * V)) : list (string * V) :=
  ((index_entries table).*2 ++ filter (fun entry => array_index entry.1 = None) table)%list.

(** How a call that may throw completes, with the state it leaves. *)
Inductive JsError := TypeError.

Inductive Completion (S : Type) :=
  | Normal (s : S)
  | Abrupt (e : JsError) (s : S).
Arguments Normal {S} s.
Arguments Abrupt {S} e s.

Definition state_of {S} (c : Completion S) : S :=
  match c with Normal s | Abrupt _ s => s end.

(** The rest of a sequence runs only after a normal completion. *)
Definition andThen {S} (c : Completion S) (rest : S → Completion S) : Completion S :=
  match c with
  | Normal s => rest s
  | Abrupt e s => Abrupt e s
  end.

(** [for (const a of l) body (a)] on calls that may throw. *)
Definition forEach {S A} (l : list A) (body : S → A → Completion S) (s : S)
  : Completion S :=
  fold_left (fun c a => andThen c (fun s => body s a)) l (Normal s).

(** ** Registry *)

(** A structure definition: an array of block ids (existence check) or an
    object from block id to required amount. *)
Inductive Requirement :=
  | Existence (blocks : list string)
  | Threshold (amounts : list (string * Z)).

Record Conditions := mkConditions {
  cond_dimension : option string;
  cond_biomes : option (list string)
}.

Record LootEntry := mkLootEntry {
  item : string;
  chance : float;
  conditions : option Conditions
}.

Record Registry := mkRegistry {
  structures : list (string * Requirement);
  structureLoot : gmap string (list LootEntry);
  biomeLoot : gmap string (list LootEntry)
}.

(** The module-level tables as the file declares them. *)
Definition initial_structures : list (string * Requirement) :=
  [ ("desert_pyramid",
       Threshold [("minecraft:chiseled_sandstone", 2); ("minecraft:tnt", 2)]);
    ("buried_treasure",
       Threshold [("minecraft:sand", 8); ("minecraft:sandstone", 4)]);
    ("shipwreck_treasure",
       Existence ["minecraft:prismarine"; "minecraft:dark_prismarine"]);
    ("ruined_portal",
       Existence ["minecraft:obsidian"; "minecraft:crying_obsidian"]) ].

Definition initial_registry : Registry := mkRegistry initial_structures ∅ ∅.

(** [structures[id]] *)
Fixpoint structures_get (id : string) (table : list (string * Requirement))
  : option Requirement :=
  match table with
  | [] => None
  | (k, def) :: table' => if decide (k = id) then Some def else structures_get id table'
  end.

(** A definition is an array or an object, hence truthy: [structures[id]] is
    truthy when [id] is registered and when it is an inherited name. *)
Definition registerStructure (id : string) (definition : Requirement)
    (reg : Registry) : Registry :=
  match structures_get id (structures reg) with
  | Some _ => reg
  | None =>
      if inherited id then reg
      else mkRegistry (structures reg ++ [(id, definition)])%list
                      (structureLoot reg) (biomeLoot reg)
  end.

(** The body shared, line for line, by [registerStructureLoot] and
    [registerBiomeLoot] once loot already exists for the id. *)
Definition mergeRegistered (existing loot : list LootEntry) : list LootEntry :=
  let map : JsMap LootEntry := [] in
  (* Existing loot *)
  let map := fold_left (fun map entry => Map_set (item entry) entry map) existing map in
  (* New loot *)
  let map :=
    fold_left (fun map entry =>
      match Map_get (item entry) map with
      | None => Map_set (item entry) entry map
      | Some prev =>
          if PrimFloat.ltb (chance prev) (chance entry)
          then Map_set (item entry) entry map
          else map
      end) loot map in
  Map_values map.

(** With no own table for the id, [!structureLoot[id]] is false for an
    inherited name: the merge path is taken and [for (const entry of
    existing)] throws, before anything is stored. *)
Definition registerLoot (id : string) (loot : list LootEntry)
    (table : gmap string (list LootEntry)) : Completion (gmap string (list LootEntry)) :=
  match table !! id with
  | None =>
      if inherited id then Abrupt TypeError table
      else Normal (<[id := loot]> table)
  | Some existing => Normal (<[id := mergeRegistered existing loot]> table)
  end.

Definition registerStructureLoot (structureId : string) (loot : list LootEntry)
    (reg : Registry) : Completion Registry :=
  match registerLoot structureId loot (structureLoot reg) with
  | Normal table => Normal (mkRegistry (structures reg) table (biomeLoot reg))
  | Abrupt e _ => Abrupt e reg
  end.

Definition registerBiomeLoot (biomeId : string) (loot : list LootEntry)
    (reg : Registry) : Completion Registry :=
  match registerLoot biomeId loot (biomeLoot reg) with
  | Normal table => Normal (mkRegistry (structures reg) (structureLoot reg) table)
  | Abrupt e _ => Abrupt e reg
  end.

(** ** Structure classifier *)

(** The values [-radius, ..., radius] of one loop variable. *)
Definition offsets (radius : Z) : list Z := seqZ (- radius) (2 * radius + 1).

(** The body of the innermost loop, on [(blockCount, chestCount)]. *)
Definition scanCell (dim : Dimension) (origin : Vector3)
    (acc : gmap string Z * Z) (dx dy dz : Z) : gmap string Z * Z :=
  match getBlock dim (mkPos (pos_x origin + dx) (pos_y origin + dy) (pos_z origin + dz)) with
  | None => acc
  | Some id =>
      (<[id := default 0 (acc.1 !! id) + 1]> acc.1,
       if decide (id = "minecraft:chest") then acc.2 + 1 else acc.2)
  end.

Definition scanArea (dim : Dimension) (origin : Vector3) (radius : Z)
  : gmap string Z * Z :=
  fold_left (fun acc dx =>
    fold_left (fun acc dy =>
      fold_left (fun acc dz => scanCell dim origin acc dx dy dz)
                (offsets radius) acc)
              (offsets radius) acc)
            (offsets radius) (∅, 0).

(** Case A: the loop returns at the first listed block id the scan has seen. *)
Fixpoint existenceLoop (blockCount : gmap string Z) (requirement : list string) : bool :=
  match requirement with
  | [] => false
  | blockId :: rest =>
      if bool_decide (is_Some (blockCount !! blockId)) then true
      else existenceLoop blockCount rest
  end.

(** Case B: the final value of [valid]; the loop breaks at the first block id
    that is short of its required amount. *)
Fixpoint amountsLoop (blockCount : gmap string Z) (requirement : list (string * Z)) : bool :=
  match requirement with
  | [] => true
  | (blockId, requiredAmount) :: rest =>
      if (default 0 (blockCount !! blockId) <? requiredAmount)%Z then false
      else amountsLoop blockCount rest
  end.

Fixpoint structuresLoop (blockCount : gmap string Z)
    (entries : list (string * Requirement)) : string :=
  match entries with
  | [] => "default"
  | (structureId, requirement) :: rest =>
      match requirement with
      | Existence blocks =>
          if existenceLoop blockCount blocks then structureId
          else structuresLoop blockCount rest
      | Threshold amounts =>
          if amountsLoop blockCount amounts then structureId
          else structuresLoop blockCount rest
      end
  end.

Definition detectNearbyStructure (reg : Registry) (block : Block) (radius : Z) : string :=
  let dim := dimension block in
  let origin := location block in
  let '(blockCount, chestCount) := scanArea dim origin radius in
  if (6 <=? chestCount)%Z then "chest_cluster"
  else structuresLoop blockCount (Object_entries (structures reg)).

(** ** Loot resolver *)

Record Context := mkContext { biomeId : string; dimensionId : string }.

(** The two [continue] guards of the structure layer.  [cond.dimension] is
    tested for truthiness: an empty string does not count as a condition. *)
Definition skipped (entry : LootEntry) (context : Context) : bool :=
  match conditions entry with
  | None => false
  | Some cond =>
      match cond_dimension cond with
      | Some d => negb (bool_decide (d = "")) && negb (bool_decide (d = dimensionId context))
      | None => false
      end
      ||
      match cond_biomes cond with
      | Some biomes => negb (bool_decide (biomeId context ∈ biomes))
      | None => false
      end
  end.

(** [finalLoot.set (entry.item, (finalLoot.get (entry.item) ?? 0) + entry.chance)] *)
Definition accumulate (finalLoot : JsMap float) (entry : LootEntry) : JsMap float :=
  Map_set (item entry)
          (PrimFloat.add (default 0%float (Map_get (item entry) finalLoot)) (chance entry))
          finalLoot.

Definition mergeLootTables (biomeTable structureTable : option (list LootEntry))
    (context : Context) : JsMap float :=
  let finalLoot : JsMap float := [] in
  (* 1. Biome loot (base layer) *)
  let finalLoot :=
    match biomeTable with
    | Some table => fold_left accumulate table finalLoot
    | None => finalLoot
    end in
  (* 2. Structure loot (conditional layer) *)
  let finalLoot :=
    match structureTable with
    | Some table =>
        fold_left (fun finalLoot entry =>
                     if skipped entry context then finalLoot
                     else accumulate finalLoot entry) table finalLoot
    | None => finalLoot
    end in
  finalLoot.

(** ** Injector and orchestrator *)

Definition injectLoot (lootTable : JsMap float) (block : Block) : Host unit :=
  if decide (Map_size lootTable = 0%nat) then ret tt else
  do container <- getContainer block;
  match container with
  | None => ret tt
  | Some container =>
      for_of lootTable (fun '(itemId, chance) =>
        do r <- Math_random;
        if PrimFloat.leb r chance
        then addItem container (mkItemStack itemId 1)
        else ret tt)
  end.

Definition resolve (reg : Registry) (block : Block) : Host unit :=
  do eligible <- canInjectChest block;
  if negb eligible then ret tt else
  let dimension := dimension block in
  let dimensionId := dim_id dimension in
  let biomeId := getBiome dimension (location block) in
  let structureId := detectNearbyStructure reg block 6 in
  let biomeTable := biomeLoot reg !! biomeId in
  let structureTable := structureLoot reg !! structureId in
  let finalLoot :=
    mergeLootTables biomeTable structureTable (mkContext biomeId dimensionId) in
  markChestOpened block ;;
  if decide (Map_size finalLoot = 0%nat) then ret tt else
  injectLoot finalLoot block.

(** The two event subscriptions. *)
Definition onPlayerInteractWithBlock (reg : Registry) (block : Block) : Host unit :=
  if decide (block_typeId block = "minecraft:chest") then resolve reg block else ret tt.

Definition onPlayerPlaceBlock (block : Block) : Host unit :=
  if decide (block_typeId block = "minecraft:chest") then markChestPlaced block else ret tt.

(** ** Reading a loot table per item *)

(** The chances the entries of a table hold for an item, in table order. *)
Definition chancesFor (i : string) (table : list LootEntry) : list float :=
  chance <$> filter (fun e => item e = i) table.

(** The sum as the code accumulates it: from 0, left to right. *)
Definition sumChances (cs : list float) : float := fold_left PrimFloat.add cs 0%float.

(** The structure entries whose conditions pass in a context. *)
Definition applicable (context : Context) (table : list LootEntry) : list LootEntry :=
  filter (fun e => skipped e context = false) table.

(** The stored entry for an item: the first one, in a table read from the
    front. *)
Definition entryFor (i : string) (table : list LootEntry) : option LootEntry :=
  List.find (fun e => bool_decide (item e = i)) table.

(** What one incoming entry does to the entry kept for item [i]. *)
Definition challenge (i : string) (kept : option LootEntry) (entry : LootEntry)
  : option LootEntry :=
  if decide (item entry = i) then
    match kept with
    | None => Some entry
    | Some prev => if PrimFloat.ltb (chance prev) (chance entry) then Some entry else Some prev
    end
  else kept.

(** Successive registrations for one id. *)
Definition registerAll (id : string) (loots : list (list LootEntry))
    (table : gmap string (list LootEntry)) : Completion (gmap string (list LootEntry)) :=
  forEach loots (fun table loot => registerLoot id loot table) table.

(** Invariant of the map of a loot merge: every pair holds an entry under the entry's own item. *)
Definition keyed (m : JsMap LootEntry) : Prop :=
  Forall (fun kv => item kv.2 = kv.1) m.

(** The body of the second loop of [mergeRegistered]. *)
Definition incoming (map : JsMap LootEntry) (entry : LootEntry) : JsMap LootEntry :=
  match Map_get (item entry) map with
  | None => Map_set (item entry) entry map
  | Some prev =>
      if PrimFloat.ltb (chance prev) (chance entry)
      then Map_set (item entry) entry map
      else map
  end.

(** The state of a stored table after some registrations: no item twice,
    every entry one that was registered, and for every registered entry a
    stored one for its item that the entry does not beat. *)
Definition best_of (seen stored : list LootEntry) : Prop :=
  NoDup (item <$> stored)
  ∧ (∀ k, k ∈ stored → k ∈ seen)
  ∧ (∀ e, e ∈ seen →
       ∃ k, k ∈ stored ∧ item k = item e ∧ PrimFloat.ltb (chance k) (chance e) = false).

(** The merged table [resolve] computes for a block. *)
Definition resolvedLoot (reg : Registry) (block : Block) : JsMap float :=
  let biomeId := getBiome (dimension block) (location block) in
  mergeLootTables (biomeLoot reg !! biomeId)
                  (structureLoot reg !! detectNearbyStructure reg block 6)
                  (mkContext biomeId (dim_id (dimension block))).

(** One roll of the injector on a container. *)
Definition roll (container : string * Vector3) (entry : string * float) : Host unit :=
  let '(itemId, chance) := entry in
  do r <- Math_random;
  if PrimFloat.leb r chance
  then addItem container (mkItemStack itemId 1)
  else ret tt.

(** ** The classifier as the specification words it *)

(** The offsets of the cells of the scanned cube, in the order of the three
    loops. *)
Definition cube (radius : Z) : list (Z * Z * Z) :=
  offsets radius ≫= fun dx =>
  offsets radius ≫= fun dy =>
  offsets radius ≫= fun dz => [(dx, dy, dz)].

Definition blockAt (dim : Dimension) (origin : Vector3) (d : Z * Z * Z) : option string :=
  getBlock dim (mkPos (pos_x origin + d.1.1) (pos_y origin + d.1.2) (pos_z origin + d.2)).

(** The block types of the loaded cells of the cube, one per cell. *)
Definition scanned (dim : Dimension) (origin : Vector3) (radius : Z) : list string :=
  omap (blockAt dim origin) (cube radius).

Definition countOf (id : string) (seen : list string) : Z :=
  Z.of_nat (length (filter (fun x => x = id) seen)).

(** A list requirement is satisfied when some listed block type was counted
    at least once, a mapping requirement when every listed block type was
    counted at least its minimum. *)
Definition satisfied (count : string → Z) (requirement : Requirement) : bool :=
  match requirement with
  | Existence blocks => existsb (fun blockId => (1 <=? count blockId)%Z) blocks
  | Threshold amounts =>
      forallb (fun '(blockId, requiredAmount) => (requiredAmount <=? count blockId)%Z)
              amounts
  end.

Definition classify (count : string → Z) (table : list (string * Requirement)) : string :=
  if (6 <=? count "minecraft:chest")%Z then "chest_cluster"
  else match List.find (fun entry => satisfied count entry.2) table with
       | Some (structureId, _) => structureId
       | None => "default"
       end.

(** ** Trinket loot registration

    A trinket definition is untyped in the source.  Of an entry only the
    tests the code makes are kept: [entry.biome] and [entry.structure] are
    read for truthiness (absent, or a string that may be empty), and
    [entry.chance] for being a number ([Some c], NaN included) or not ([None]).  A field
    [loot.biomes] or [loot.structures] that is not an array is [None]. *)

Record BiomeDrop := mkBiomeDrop {
  drop_biome : option string;
  drop_chance : option float
}.

Record StructureDrop := mkStructureDrop {
  drop_structure : option string;
  sdrop_chance : option float;
  drop_conditions : option Conditions
}.

Record TrinketLoot := mkTrinketLoot {
  loot_biomes : option (list BiomeDrop);
  loot_structures : option (list StructureDrop)
}.

Record Trinket := mkTrinket { trinket_loot : option TrinketLoot }.

(** [!!s] for a field that is absent or a string. *)
Definition truthy (s : option string) : bool :=
  match s with
  | Some s => negb (bool_decide (s = ""))
  | None => false
  end.

(** The body of the loop over [loot.biomes]. *)
Definition registerBiomeDrop (trinketId : string) (reg : Registry) (entry : BiomeDrop)
  : Completion Registry :=
  match drop_biome entry, drop_chance entry with
  | Some biome, Some chance =>
      if truthy (Some biome)
      then registerBiomeLoot biome [mkLootEntry trinketId chance None] reg
      else Normal reg
  | _, _ => Normal reg
  end.

(** The body of the loop over [loot.structures]. *)
Definition registerStructureDrop (trinketId : string) (reg : Registry)
    (entry : StructureDrop) : Completion Registry :=
  match drop_structure entry, sdrop_chance entry with
  | Some structure, Some chance =>
      if truthy (Some structure)
      then registerStructureLoot structure
             [mkLootEntry trinketId chance (drop_conditions entry)] reg
      else Normal reg
  | _, _ => Normal reg
  end.

Definition registerTrinketLoot (trinketId : string) (trinket : Trinket)
    (reg : Registry) : Completion Registry :=
  match trinket_loot trinket with
  | None => Normal reg
  | Some loot =>
      andThen
        (* Biome loot *)
        (match loot_biomes loot with
         | Some entries => forEach entries (registerBiomeDrop trinketId) reg
         | None => Normal reg
         end)
        (* Structure loot *)
        (fun reg =>
           match loot_structures loot with
           | Some entries => forEach entries (registerStructureDrop trinketId) reg
           | None => Normal reg
           end)
  end.

(** ** Event streams *)

Inductive WorldEvent :=
  | PlayerInteractWithBlock (block : Block)
  | PlayerPlaceBlock (block : Block).

Definition subscriber (reg : Registry) (e : WorldEvent) : Host unit :=
  match e with
  | PlayerInteractWithBlock block => onPlayerInteractWithBlock reg block
  | PlayerPlaceBlock block => onPlayerPlaceBlock block
  end.

(** ** Reading worlds and registries *)

(** The position is in the placed or in the opened set of its region. *)
Definition tracked (pos : Vector3) (w : World) : Prop :=
  posKey pos ∈ chestSet PLACED_CHESTS_KEY pos w
  ∨ posKey pos ∈ chestSet OPENED_CHESTS_KEY pos w.

(** The item stacks the injector adds for a table, given the draws from
    position [n] of the random stream on. *)
Fixpoint rolled (draws : nat → float) (n : nat) (lootTable : JsMap float) : list ItemStack :=
  match lootTable with
  | [] => []
  | (itemId, chance) :: rest =>
      if PrimFloat.leb (draws n) chance
      then mkItemStack itemId 1 :: rolled draws (S n) rest
      else rolled draws (S n) rest
  end.

(** Every stored loot table names an item at most once. *)
Definition tables_unique (reg : Registry) : Prop :=
  (∀ id table, structureLoot reg !! id = Some table → NoDup (item <$> table))
  ∧ (∀ id table, biomeLoot reg !! id = Some table → NoDup (item <$> table)).

(** A stored table holds an entry for the item that the chance does not
    beat: [c > chance] is false. *)
Definition offers (table : option (list LootEntry)) (i : string) (c : float) : Prop :=
  ∃ stored k, table = Some stored ∧ k ∈ stored ∧ item k = i
              ∧ PrimFloat.ltb (chance k) c = false.

(** The dynamic property a mark writes. *)
Definition event_key (e : TrackingEvent) : string :=
  match e with
  | MarkOpened b => regionPropertyKey OPENED_CHESTS_KEY (location b)
  | MarkPlaced b => regionPropertyKey PLACED_CHESTS_KEY (location b)
  end.

(** The distinct elements of a list in the order of their first occurrence,
    continuing a list of elements already seen. *)
Definition firsts (seen l : list string) : list string :=
  fold_left (fun acc x => if decide (x ∈ acc) then acc else (acc ++ [x])%list) l seen.

(** The target and chance of a well-formed entry of [loot.biomes]: the biome
    is truthy and the chance a number. *)
Definition biomeTarget (entry : BiomeDrop) : option (string * float) :=
  match drop_biome entry, drop_chance entry with
  | Some biome, Some chance => if truthy (Some biome) then Some (biome, chance) else None
  | _, _ => None
  end.

Definition structureTarget (entry : StructureDrop) : option (string * float) :=
  match drop_structure entry, sdrop_chance entry with
  | Some structure, Some chance =>
      if truthy (Some structure) then Some (structure, chance) else None
  | _, _ => None
  end.

(** The well-formed entries of a trinket definition. *)
Definition biomeTargets (trinket : Trinket) : list (string * float) :=
  match trinket_loot trinket with
  | Some loot => omap biomeTarget (default [] (loot_biomes loot))
  | None => []
  end.

Definition structureTargets (trinket : Trinket) : list (string * float) :=
  match trinket_loot trinket with
  | Some loot => omap structureTarget (default [] (loot_structures loot))
  | None => []
  end.

(** Every table of a loot registry names an item at most once. *)
Definition unique_tables (table : gmap string (list LootEntry)) : Prop :=
  ∀ id stored, table !! id = Some stored → NoDup (item <$> stored).

(** Single-entry registrations, one after the other, on one loot registry. *)
Definition registerEach (regs : list (string * LootEntry))
    (table : gmap string (list LootEntry)) : Completion (gmap string (list LootEntry)) :=
  forEach regs (fun table r => registerLoot r.1 [r.2] table) table.

(** The registrations the two loops of [registerTrinketLoot] make. *)
Definition biomeRegistrations (trinketId : string) (entries : list BiomeDrop)
  : list (string * LootEntry) :=
  omap (fun entry =>
          (fun t : string * float => (t.1, mkLootEntry trinketId t.2 None))
            <$> biomeTarget entry) entries.

Definition structureRegistrations (trinketId : string) (entries : list StructureDrop)
  : list (string * LootEntry) :=
  omap (fun entry =>
          (fun t : string * float =>
             (t.1, mkLootEntry trinketId t.2 (drop_conditions entry)))
            <$> structureTarget entry) entries.

(** Every regional set holds position keys of its own region only. *)
Definition partitioned (w : World) : Prop :=
  ∀ (pos : Vector3) (s : string),
    s ∈ chestSet PLACED_CHESTS_KEY pos w ∨ s ∈ chestSet OPENED_CHESTS_KEY pos w →
    ∃ p, s = posKey p ∧ region_of p = region_of pos.

(** ** Sample inputs *)

(** A world with no dynamic property, one chest inventory at (0,64,0) and
    draws that are all 0.5. *)
Definition sample_world : World :=
  mkWorld ∅ {[ ("minecraft:overworld", mkPos 0 64 0) := [] ]} (fun _ => 0.5%float) 0.

(** A desert with three tnt blocks and two chiseled sandstone blocks next to
    the chest at (0,64,0). *)
Definition sample_dimension : Dimension :=
  mkDimension "minecraft:overworld"
    (fun p =>
       if decide (p = mkPos 0 64 0) then Some "minecraft:chest"
       else if decide (pos_y p = 63 ∧ pos_z p = 0 ∧ 0 <= pos_x p <= 2)
       then Some "minecraft:tnt"
       else if decide (pos_y p = 62 ∧ pos_z p = 0 ∧ 0 <= pos_x p <= 1)
       then Some "minecraft:chiseled_sandstone"
       else None)
    (fun _ => "minecraft:desert").

Definition sample_chest : Block :=
  mkBlock "minecraft:chest" sample_dimension (mkPos 0 64 0).

Definition other_chest : Block :=
  mkBlock "minecraft:chest" sample_dimension (mkPos 300 64 0).

Definition sample_registry : Registry :=
  state_of (registerStructureLoot "desert_pyramid"
              [mkLootEntry "minecraft:gold_ingot" 1%float None] initial_registry).

(** The sample world after the sample chest was placed by a player. *)
Definition placed_world : World := (markChestPlaced sample_chest sample_world).2.

(** The sample dimension with stone far to the east of the sample chest. *)
Definition far_dimension : Dimension :=
  mkDimension "minecraft:overworld"
    (fun p => if decide (100 <= pos_x p) then Some "minecraft:stone"
              else getBlock sample_dimension p)
    (fun _ => "minecraft:desert").

Definition far_chest : Block :=
  mkBlock "minecraft:chest" far_dimension (mkPos 0 64 0).

Definition sample_table : gmap string (list LootEntry) :=
  {[ "minecraft:plains" := [mkLootEntry "x" 0.5%float None] ]}.

(** A trinket with one well-formed biome entry, one without a chance and one
    well-formed structure entry. *)
Definition sample_trinket : Trinket :=
  mkTrinket (Some (mkTrinketLoot
    (Some [mkBiomeDrop (Some "minecraft:desert") (Some 0.25%float);
           mkBiomeDrop (Some "minecraft:plains") None])
    (Some [mkStructureDrop (Some "desert_pyramid") (Some 0.125%float) None]))).
(** * Properties

    ** Decimal numerals contain no separator *)

Lemma pretty_N_char_comma n : Ascii.eqb (pretty_N_char n) ","%char = false.
Proof. unfold pretty_N_char. by repeat case_match. Qed.

Lemma pretty_N_go_comma_free n s :
  comma_free s = true → comma_free (pretty_N_go n s) = true.
Proof.
  revert s. induction (N.lt_wf_0 n) as [n _ IH]; intros s Hs.
  destruct (decide (n = 0)%N) as [->|Hn]; [by rewrite pretty_N_go_0|].
  rewrite pretty_N_go_step by lia.
  apply IH; [apply N.div_lt; lia|].
  simpl. by rewrite pretty_N_char_comma.
Qed.

Lemma pretty_N_comma_free (n : N) : comma_free (pretty n) = true.
Proof.
  unfold pretty, pretty_N. case_decide; [done|].
  by apply pretty_N_go_comma_free.
Qed.

Lemma pretty_Z_comma_free (n : Z) : comma_free (pretty n) = true.
Proof.
  destruct n as [|p|p]; unfold pretty, pretty_Z; [done|..].
  - apply pretty_N_comma_free.
  - simpl. apply pretty_N_comma_free.
Qed.

(** Two strings that agree and whose first fields hold no comma agree field
    by field. *)
Lemma comma_split a a' r r' :
  comma_free a = true → comma_free a' = true →
  a +:+ "," +:+ r = a' +:+ "," +:+ r' → a = a' ∧ r = r'.
Proof.
  revert a'. induction a as [|c a IH]; intros [|c' a'] Ha Ha' Heq; simpl in *.
  - by simplify_eq.
  - by simplify_eq.
  - by simplify_eq.
  - apply andb_prop in Ha as [_ Ha]. apply andb_prop in Ha' as [_ Ha'].
    injection Heq as -> Heq. destruct (IH a' Ha Ha' Heq) as [-> ->]. done.
Qed.

Lemma posKey_inj p q : posKey p = posKey q → p = q.
Proof.
  destruct p as [x y z], q as [x' y' z']. unfold posKey; simpl. intros H.
  apply comma_split in H as [Hx H]; try apply pretty_Z_comma_free.
  apply comma_split in H as [Hy Hz]; try apply pretty_Z_comma_free.
  apply (inj pretty) in Hx, Hy, Hz. by subst.
Qed.

Lemma regionKey_inj p q : regionKey p = regionKey q ↔ region_of p = region_of q.
Proof.
  unfold regionKey, region_of, REGION_SIZE; simpl. split.
  - intros H. apply comma_split in H as [Hx Hz]; try apply pretty_Z_comma_free.
    apply (inj pretty) in Hx, Hz. by rewrite Hx, Hz.
  - intros [= -> ->]. done.
Qed.

Lemma append_inj_l (a r r' : string) : a +:+ r = a +:+ r' → r = r'.
Proof. induction a; simpl; intros H; [done|]. injection H. auto. Qed.

Lemma regionPropertyKey_inj base p q :
  regionPropertyKey base p = regionPropertyKey base q → region_of p = region_of q.
Proof.
  unfold regionPropertyKey. intros H. apply append_inj_l in H.
  simpl in H. injection H as H. by apply regionKey_inj.
Qed.

Lemma regionPropertyKey_kinds p q :
  regionPropertyKey PLACED_CHESTS_KEY p ≠ regionPropertyKey OPENED_CHESTS_KEY q.
Proof. unfold regionPropertyKey. simpl. discriminate. Qed.

Lemma regionPropertyKey_placed_prefix p :
  String.prefix PLACED_CHESTS_KEY (regionPropertyKey PLACED_CHESTS_KEY p) = true.
Proof. reflexivity. Qed.

Lemma regionPropertyKey_opened_prefix p :
  String.prefix OPENED_CHESTS_KEY (regionPropertyKey OPENED_CHESTS_KEY p) = true.
Proof. reflexivity. Qed.

(** ** Region store *)

Lemma getChestSet_run base pos w : getChestSet base pos w = (chestSet base pos w, w).
Proof. reflexivity. Qed.

Lemma canInjectChest_run b w :
  canInjectChest b w =
  (negb (bool_decide (posKey (location b) ∈ chestSet PLACED_CHESTS_KEY (location b) w))
   && negb (bool_decide (posKey (location b) ∈ chestSet OPENED_CHESTS_KEY (location b) w)),
   w).
Proof.
  unfold canInjectChest, bind. rewrite !getChestSet_run. simpl.
  destruct (bool_decide _); [done|]. by destruct (bool_decide _).
Qed.

Lemma canInjectChest_pure b w : (canInjectChest b w).2 = w.
Proof. by rewrite canInjectChest_run. Qed.

Lemma reads_id b n w : reads b n w = w.
Proof.
  unfold reads. induction n as [|n IH]; simpl; [done|].
  by rewrite IH, canInjectChest_pure.
Qed.

Lemma markChestOpened_run b w :
  markChestOpened b w =
  (tt, mkWorld (<[regionPropertyKey OPENED_CHESTS_KEY (location b) :=
                  {[posKey (location b)]} ∪ chestSet OPENED_CHESTS_KEY (location b) w]>
                (dynamicProperties w))
               (containers w) (randomDraws w) (randomCursor w)).
Proof. reflexivity. Qed.

Lemma markChestPlaced_run b w :
  markChestPlaced b w =
  (tt, mkWorld (<[regionPropertyKey PLACED_CHESTS_KEY (location b) :=
                  {[posKey (location b)]} ∪ chestSet PLACED_CHESTS_KEY (location b) w]>
                (dynamicProperties w))
               (containers w) (randomDraws w) (randomCursor w)).
Proof. reflexivity. Qed.

Lemma region_of_key base p q :
  region_of p = region_of q → regionPropertyKey base p = regionPropertyKey base q.
Proof. intros H. apply regionKey_inj in H. unfold regionPropertyKey. by rewrite H. Qed.

(** What a mark does to the regional sets a position reads. *)
Lemma opened_after_markChestOpened b q w :
  chestSet OPENED_CHESTS_KEY q (markChestOpened b w).2 =
  if decide (region_of q = region_of (location b))
  then {[posKey (location b)]} ∪ chestSet OPENED_CHESTS_KEY q w
  else chestSet OPENED_CHESTS_KEY q w.
Proof.
  rewrite markChestOpened_run. unfold chestSet. simpl.
  destruct (decide _) as [Hr|Hr].
  - rewrite (region_of_key _ _ _ Hr). by rewrite lookup_insert_eq.
  - rewrite lookup_insert_ne; [done|].
    intros Heq. apply Hr. symmetry. by apply regionPropertyKey_inj in Heq.
Qed.

Lemma placed_after_markChestOpened b q w :
  chestSet PLACED_CHESTS_KEY q (markChestOpened b w).2 = chestSet PLACED_CHESTS_KEY q w.
Proof.
  rewrite markChestOpened_run. unfold chestSet. simpl.
  rewrite lookup_insert_ne; [done|]. intros H. symmetry in H.
  by apply regionPropertyKey_kinds in H.
Qed.

Lemma placed_after_markChestPlaced b q w :
  chestSet PLACED_CHESTS_KEY q (markChestPlaced b w).2 =
  if decide (region_of q = region_of (location b))
  then {[posKey (location b)]} ∪ chestSet PLACED_CHESTS_KEY q w
  else chestSet PLACED_CHESTS_KEY q w.
Proof.
  rewrite markChestPlaced_run. unfold chestSet. simpl.
  destruct (decide _) as [Hr|Hr].
  - rewrite (region_of_key _ _ _ Hr). by rewrite lookup_insert_eq.
  - rewrite lookup_insert_ne; [done|].
    intros Heq. apply Hr. symmetry. by apply regionPropertyKey_inj in Heq.
Qed.

Lemma opened_after_markChestPlaced b q w :
  chestSet OPENED_CHESTS_KEY q (markChestPlaced b w).2 = chestSet OPENED_CHESTS_KEY q w.
Proof.
  rewrite markChestPlaced_run. unfold chestSet. simpl.
  rewrite lookup_insert_ne; [done|]. intros H.
  by apply regionPropertyKey_kinds in H.
Qed.

(** Membership of a position key after a mark. *)
Lemma elem_opened_after_markChestOpened b q w :
  posKey q ∈ chestSet OPENED_CHESTS_KEY q (markChestOpened b w).2 ↔
  q = location b ∨ posKey q ∈ chestSet OPENED_CHESTS_KEY q w.
Proof.
  rewrite opened_after_markChestOpened. destruct (decide _) as [Hr|Hr].
  - rewrite elem_of_union, elem_of_singleton. split; intros [H|H]; auto.
    + left. by apply posKey_inj.
    + left. by rewrite H.
  - split; [auto|]. intros [->|H]; [done|done].
Qed.

Lemma elem_placed_after_markChestPlaced b q w :
  posKey q ∈ chestSet PLACED_CHESTS_KEY q (markChestPlaced b w).2 ↔
  q = location b ∨ posKey q ∈ chestSet PLACED_CHESTS_KEY q w.
Proof.
  rewrite placed_after_markChestPlaced. destruct (decide _) as [Hr|Hr].
  - rewrite elem_of_union, elem_of_singleton. split; intros [H|H]; auto.
    + left. by apply posKey_inj.
    + left. by rewrite H.
  - split; [auto|]. intros [->|H]; [done|done].
Qed.

(** A position is tracked when its key is in one of its two regional sets. *)
Lemma canInjectChest_false b w :
  (canInjectChest b w).1 = false ↔
  posKey (location b) ∈ chestSet PLACED_CHESTS_KEY (location b) w ∨
  posKey (location b) ∈ chestSet OPENED_CHESTS_KEY (location b) w.
Proof.
  rewrite canInjectChest_run. simpl.
  rewrite andb_false_iff, !negb_false_iff, !bool_decide_eq_true. done.
Qed.

Lemma canInjectChest_true b w :
  (canInjectChest b w).1 = true ↔
  (posKey (location b) ∉ chestSet PLACED_CHESTS_KEY (location b) w) ∧
  (posKey (location b) ∉ chestSet OPENED_CHESTS_KEY (location b) w).
Proof.
  rewrite canInjectChest_run. simpl.
  rewrite andb_true_iff, !negb_true_iff, !bool_decide_eq_false. done.
Qed.

Lemma canInjectChest_location b b' w :
  location b = location b' → (canInjectChest b w).1 = (canInjectChest b' w).1.
Proof. intros H. rewrite !canInjectChest_run. simpl. by rewrite H. Qed.

(** ** Reset *)

Lemma reset_loop ids w :
  let w' := (for_of ids (fun id =>
               if String.prefix PLACED_CHESTS_KEY id || String.prefix OPENED_CHESTS_KEY id
               then setDynamicProperty id None
               else ret tt) w).2 in
  (∀ k, dynamicProperties w' !! k =
        if decide (k ∈ ids ∧ tracking_key k = true) then None
        else dynamicProperties w !! k)
  ∧ containers w' = containers w
  ∧ randomDraws w' = randomDraws w
  ∧ randomCursor w' = randomCursor w.
Proof.
  cbv zeta. revert w. induction ids as [|i ids' IH]; intros w.
  - split; [|done]. intros k. rewrite decide_False; [done|].
    intros [H _]. by apply elem_of_nil in H.
  - cbn [for_of]. unfold bind. fold (tracking_key i).
    destruct (IH ((if tracking_key i then setDynamicProperty i None else ret tt) w).2)
      as (Hk & Hc & Hd & Hn).
    split; [|destruct (tracking_key i); simpl in *; by rewrite ?Hc, ?Hd, ?Hn].
    intros k. rewrite Hk. clear IH Hk Hc Hd Hn.
    destruct (decide (k ∈ ids' ∧ tracking_key k = true)) as [[Hin Ht]|Hn].
    + rewrite decide_True; [done|]. split; [by right|done].
    + destruct (decide (k = i)) as [->|Hne].
      * destruct (tracking_key i) eqn:Ht; simpl.
        -- rewrite lookup_delete_eq. rewrite decide_True; [done|]. split; [by left|done].
        -- rewrite decide_False; [done|]. intros [_ ?]; congruence.
      * rewrite decide_False.
        2:{ intros [Hin Ht]. apply Hn. split; [|done].
            apply elem_of_cons in Hin as [?|?]; [done|done]. }
        destruct (tracking_key i); simpl; [|done]. by rewrite lookup_delete_ne.
Qed.

Lemma resetChestTracking_run w :
  resetChestTracking w =
  (tt, mkWorld (filter (fun kv => tracking_key kv.1 = false) (dynamicProperties w))
               (containers w) (randomDraws w) (randomCursor w)).
Proof.
  unfold resetChestTracking, bind, getDynamicPropertyIds. simpl.
  pose proof (reset_loop (map_to_list (dynamicProperties w)).*1 w) as H.
  simpl in H. destruct H as (Hk & Hc & Hd & Hn).
  destruct (for_of _ _ w) as [[] w'] eqn:E. simpl in *.
  f_equal. destruct w' as [p c d n]. simpl in *. subst. f_equal.
  apply map_eq. intros k. rewrite Hk. rewrite map_lookup_filter.
  destruct (dynamicProperties w !! k) as [v|] eqn:Hv; simpl.
  - destruct (tracking_key k) eqn:Ht.
    + rewrite decide_True.
      * rewrite option_guard_False; [done|]. simpl. congruence.
      * split; [|done]. apply list_elem_of_fmap. exists (k, v). split; [done|].
        by apply elem_of_map_to_list.
    + rewrite decide_False; [|intros [_ ?]; congruence].
      by rewrite option_guard_True.
  - by case_decide.
Qed.

Lemma lookup_after_reset w k :
  dynamicProperties (resetChestTracking w).2 !! k =
  if tracking_key k then None else dynamicProperties w !! k.
Proof.
  rewrite resetChestTracking_run. simpl. rewrite map_lookup_filter.
  destruct (dynamicProperties w !! k) as [v|] eqn:Hv; simpl.
  - destruct (tracking_key k) eqn:Ht.
    + rewrite option_guard_False; [done|]. simpl. congruence.
    + by rewrite option_guard_True.
  - by destruct (tracking_key k).
Qed.

Lemma chestSet_after_reset_placed w p :
  chestSet PLACED_CHESTS_KEY p (resetChestTracking w).2 = ∅.
Proof. unfold chestSet. by rewrite lookup_after_reset. Qed.

Lemma chestSet_after_reset_opened w p :
  chestSet OPENED_CHESTS_KEY p (resetChestTracking w).2 = ∅.
Proof. unfold chestSet. by rewrite lookup_after_reset. Qed.

(** ** Marks, reads and the frame of a mark *)

Lemma canInjectChest_markChestOpened_other b q w :
  location q ≠ location b →
  (canInjectChest q (markChestOpened b w).2).1 = (canInjectChest q w).1.
Proof.
  intros Hne. rewrite !canInjectChest_run. cbn [fst].
  rewrite placed_after_markChestOpened. f_equal. f_equal.
  apply bool_decide_ext. rewrite elem_opened_after_markChestOpened. tauto.
Qed.

Lemma canInjectChest_markChestPlaced_other b q w :
  location q ≠ location b →
  (canInjectChest q (markChestPlaced b w).2).1 = (canInjectChest q w).1.
Proof.
  intros Hne. rewrite !canInjectChest_run. cbn [fst].
  rewrite opened_after_markChestPlaced. f_equal. f_equal.
  apply bool_decide_ext. rewrite elem_placed_after_markChestPlaced. tauto.
Qed.

Lemma canInjectChest_markChestOpened_same b q w :
  location q = location b → (canInjectChest q (markChestOpened b w).2).1 = false.
Proof.
  intros He. apply canInjectChest_false. right.
  apply elem_opened_after_markChestOpened. by left.
Qed.

Lemma canInjectChest_markChestPlaced_same b q w :
  location q = location b → (canInjectChest q (markChestPlaced b w).2).1 = false.
Proof.
  intros He. apply canInjectChest_false. left.
  apply elem_placed_after_markChestPlaced. by left.
Qed.

Lemma canInjectChest_play e q w :
  (canInjectChest q (play e w).2).1 =
  (canInjectChest q w).1 && bool_decide (location q ≠ event_location e).
Proof.
  destruct (decide (location q = event_location e)) as [He|Hne].
  - rewrite (bool_decide_eq_false_2 _) by (by intros ?). rewrite andb_false_r.
    destruct e; simpl in *.
    + by apply canInjectChest_markChestOpened_same.
    + by apply canInjectChest_markChestPlaced_same.
  - rewrite (bool_decide_eq_true_2 _ Hne), andb_true_r.
    destruct e; simpl in *.
    + by apply canInjectChest_markChestOpened_other.
    + by apply canInjectChest_markChestPlaced_other.
Qed.

Lemma canInjectChest_events events q w :
  (canInjectChest q (for_of events play w).2).1 =
  (canInjectChest q w).1 && bool_decide (location q ∉ event_location <$> events).
Proof.
  revert w. induction events as [|e events IH]; intros w.
  - cbn [for_of]. unfold ret. cbn [snd].
    rewrite bool_decide_eq_true_2; [by rewrite andb_true_r|].
    apply not_elem_of_nil.
  - cbn [for_of]. unfold bind. rewrite IH, canInjectChest_play, <-andb_assoc.
    f_equal. rewrite fmap_cons.
    destruct (decide (location q = event_location e)) as [He|Hne].
    + rewrite (bool_decide_eq_false_2 (_ ≠ _)) by (by intros ?). simpl.
      symmetry. apply bool_decide_eq_false_2. intros H. apply H. rewrite He. by left.
    + rewrite (bool_decide_eq_true_2 _ Hne). simpl.
      apply bool_decide_ext. rewrite not_elem_of_cons. tauto.
Qed.

Lemma canInjectChest_fresh b w :
  dynamicProperties w = ∅ → (canInjectChest b w).1 = true.
Proof.
  intros Hw. apply canInjectChest_true. unfold chestSet. rewrite Hw, !lookup_empty.
  simpl. split; apply not_elem_of_empty.
Qed.

(** ** Properties of the region store *)

(** C6. A position that was never marked placed or opened is eligible: from
    a world without tracking data, after any marks, [canInjectChest] answers
    true exactly for the positions not among the marked ones.  After
    [markChestOpened] or [markChestPlaced] at a position the answer there is
    false, also after any number of reads, and a read leaves the world as it
    was. *)
Theorem C6_canInject_tracks_marks :
  (∀ w events b, dynamicProperties w = ∅ →
     (canInjectChest b (for_of events play w).2).1
     = bool_decide (location b ∉ event_location <$> events))
  ∧ (∀ w b b' n, location b' = location b →
       (canInjectChest b' (reads b' n (markChestOpened b w).2)).1 = false
       ∧ (canInjectChest b' (reads b' n (markChestPlaced b w).2)).1 = false)
  ∧ (∀ w b n, (canInjectChest b w).2 = w ∧ reads b n w = w).
Proof.
  split; [|split].
  - intros w events b Hw. by rewrite canInjectChest_events, canInjectChest_fresh.
  - intros w b b' n He. rewrite !reads_id. split.
    + by apply canInjectChest_markChestOpened_same.
    + by apply canInjectChest_markChestPlaced_same.
  - intros w b n. split; [apply canInjectChest_pure|apply reads_id].
Qed.

Lemma C6_witness :
  dynamicProperties sample_world = ∅
  ∧ (canInjectChest sample_chest
       (for_of [MarkOpened other_chest; MarkPlaced other_chest] play sample_world).2).1
    = bool_decide (location sample_chest
                   ∉ event_location <$> [MarkOpened other_chest; MarkPlaced other_chest])
  ∧ (canInjectChest sample_chest
       (reads sample_chest 3 (markChestOpened sample_chest sample_world).2)).1 = false.
Proof.
  split; [reflexivity|]. split.
  - exact (proj1 C6_canInject_tracks_marks sample_world
             [MarkOpened other_chest; MarkPlaced other_chest] sample_chest eq_refl).
  - exact (proj1 (proj1 (proj2 C6_canInject_tracks_marks)
                    sample_world sample_chest sample_chest 3%nat eq_refl)).
Defined.

(** C7. Marking a position, as opened or as placed, leaves the eligibility of
    every other position as it was: distinct positions have distinct position
    keys, the keys of the two tracking kinds never coincide, and a mark writes
    one dynamic property, adding the one position key to its set. *)
Theorem C7_mark_frame (w : World) (b q : Block) :
  location q ≠ location b →
  (canInjectChest q (markChestOpened b w).2).1 = (canInjectChest q w).1
  ∧ (canInjectChest q (markChestPlaced b w).2).1 = (canInjectChest q w).1
  ∧ posKey (location q) ≠ posKey (location b)
  ∧ (∀ p p', regionPropertyKey PLACED_CHESTS_KEY p ≠ regionPropertyKey OPENED_CHESTS_KEY p')
  ∧ dynamicProperties (markChestOpened b w).2
    = <[regionPropertyKey OPENED_CHESTS_KEY (location b) :=
          {[posKey (location b)]} ∪ chestSet OPENED_CHESTS_KEY (location b) w]>
        (dynamicProperties w)
  ∧ dynamicProperties (markChestPlaced b w).2
    = <[regionPropertyKey PLACED_CHESTS_KEY (location b) :=
          {[posKey (location b)]} ∪ chestSet PLACED_CHESTS_KEY (location b) w]>
        (dynamicProperties w).
Proof.
  intros Hne. repeat split.
  - by apply canInjectChest_markChestOpened_other.
  - by apply canInjectChest_markChestPlaced_other.
  - intros H. by apply posKey_inj in H.
  - apply regionPropertyKey_kinds.
Qed.

Lemma C7_witness :
  location other_chest ≠ location sample_chest
  ∧ (canInjectChest other_chest (markChestOpened sample_chest sample_world).2).1
    = (canInjectChest other_chest sample_world).1.
Proof.
  assert (location other_chest ≠ location sample_chest) as H by discriminate.
  split; [exact H|].
  exact (proj1 (C7_mark_frame sample_world sample_chest other_chest H)).
Defined.

(** C8. The region key of a position prints the pair
    (floor (x / 256), floor (z / 256)); two positions have the same region key
    exactly when these pairs agree.  (0,0,0) and (300,0,0) have different
    region keys; (0,0,0) and (10,0,10) have the same. *)
Theorem C8_regionKey :
  (∀ p, ∃ rx rz,
     regionKey p = pretty rx +:+ "," +:+ pretty rz
     ∧ 256 * rx <= pos_x p < 256 * rx + 256
     ∧ 256 * rz <= pos_z p < 256 * rz + 256)
  ∧ (∀ p p', regionKey p = regionKey p' ↔
             (pos_x p `div` 256 = pos_x p' `div` 256 ∧ pos_z p `div` 256 = pos_z p' `div` 256))
  ∧ regionKey (mkPos 0 0 0) ≠ regionKey (mkPos 300 0 0)
  ∧ regionKey (mkPos 0 0 0) = regionKey (mkPos 10 0 10).
Proof.
  split; [|split; [|split]].
  - intros p. exists (pos_x p `div` 256), (pos_z p `div` 256).
    split; [reflexivity|].
    pose proof (Z.mul_div_le (pos_x p) 256).
    pose proof (Z.mul_succ_div_gt (pos_x p) 256).
    pose proof (Z.mul_div_le (pos_z p) 256).
    pose proof (Z.mul_succ_div_gt (pos_z p) 256). lia.
  - intros p p'. rewrite regionKey_inj. unfold region_of. split.
    + by intros [= -> ->].
    + by intros [-> ->].
  - by vm_compute.
  - by vm_compute.
Qed.

(** C9. [resetChestTracking] deletes every dynamic property whose key starts
    with the key of either tracking kind and leaves the others alone; after
    it every position is eligible, also one that was marked before. *)
Theorem C9_reset_makes_eligible (w : World) (b : Block) :
  (canInjectChest b (resetChestTracking w).2).1 = true
  ∧ (canInjectChest b (resetChestTracking (markChestOpened b w).2).2).1 = true
  ∧ (canInjectChest b (resetChestTracking (markChestPlaced b w).2).2).1 = true
  ∧ (∀ key, dynamicProperties (resetChestTracking w).2 !! key
            = if String.prefix PLACED_CHESTS_KEY key || String.prefix OPENED_CHESTS_KEY key
              then None else dynamicProperties w !! key)
  ∧ (∀ p, dynamicProperties (resetChestTracking w).2 !! regionPropertyKey PLACED_CHESTS_KEY p = None
          ∧ dynamicProperties (resetChestTracking w).2 !! regionPropertyKey OPENED_CHESTS_KEY p = None).
Proof.
  assert (∀ w', (canInjectChest b (resetChestTracking w').2).1 = true) as Hall.
  { intros w'. apply canInjectChest_true.
    rewrite chestSet_after_reset_placed, chestSet_after_reset_opened.
    split; apply not_elem_of_empty. }
  repeat split; try apply Hall.
  - intros key. apply lookup_after_reset.
  - by rewrite lookup_after_reset.
  - by rewrite lookup_after_reset.
Qed.

(** ** Insertion-ordered maps *)

Section JsMap.
Context {V : Type}.
Implicit Types (m : JsMap V) (k : string) (v : V).

Lemma Map_get_set k k' v m :
  Map_get k (Map_set k' v m) = if decide (k' = k) then Some v else Map_get k m.
Proof.
  induction m as [|[k0 v0] m IH]; simpl.
  - by destruct (decide (k' = k)).
  - destruct (decide (k0 = k')) as [->|Hne]; simpl.
    + by destruct (decide (k' = k)).
    + destruct (decide (k0 = k)) as [->|Hne'].
      * by rewrite decide_False by done.
      * apply IH.
Qed.

Lemma Map_get_None k m : Map_get k m = None ↔ k ∉ m.*1.
Proof.
  induction m as [|[k0 v0] m IH]; simpl.
  - split; [intros _; apply not_elem_of_nil|done].
  - rewrite not_elem_of_cons. destruct (decide (k0 = k)) as [->|Hne].
    + split; [done|]. by intros [? _].
    + rewrite IH. split; [by intros ?; split|by intros [_ ?]].
Qed.

Lemma Map_get_Some_elem k v m : Map_get k m = Some v → (k, v) ∈ m.
Proof.
  induction m as [|[k0 v0] m IH]; simpl; [done|].
  destruct (decide (k0 = k)) as [->|Hne].
  - intros [= ->]. by left.
  - intros H. right. by apply IH.
Qed.

Lemma Map_get_elem k v m : NoDup m.*1 → (k, v) ∈ m → Map_get k m = Some v.
Proof.
  induction m as [|[k0 v0] m IH]; simpl; intros Hnd Hin.
  - by apply elem_of_nil in Hin.
  - apply NoDup_cons in Hnd as [Hk0 Hnd].
    apply elem_of_cons in Hin as [[= -> ->]|Hin].
    + by rewrite decide_True.
    + rewrite decide_False; [by apply IH|].
      intros ->. apply Hk0. apply list_elem_of_fmap. by exists (k, v).
Qed.

Lemma Map_set_keys k v m :
  (Map_set k v m).*1 = if decide (k ∈ m.*1) then m.*1 else (m.*1 ++ [k])%list.
Proof.
  induction m as [|[k0 v0] m IH]; cbn [Map_set].
  - destruct (decide (k ∈ ([] : JsMap V).*1)) as [H|H]; [by apply elem_of_nil in H|done].
  - destruct (decide (k0 = k)) as [->|Hne].
    + rewrite !fmap_cons. cbn [fst].
      destruct (decide (k ∈ k :: m.*1)) as [H|H]; [done|]. exfalso. apply H. by left.
    + rewrite !fmap_cons, IH. cbn [fst].
      destruct (decide (k ∈ m.*1)) as [Hin|Hnin];
        destruct (decide (k ∈ k0 :: m.*1)) as [Hin'|Hnin']; try done.
      * exfalso. apply Hnin'. by right.
      * exfalso. apply elem_of_cons in Hin' as [?|?]; [by subst|done].
Qed.

Lemma Map_set_NoDup k v m : NoDup m.*1 → NoDup (Map_set k v m).*1.
Proof.
  intros Hnd. rewrite Map_set_keys. case_decide; [done|].
  apply NoDup_app. split; [done|]. split.
  - intros x Hx Hx'. apply list_elem_of_singleton in Hx'. by subst.
  - apply NoDup_singleton.
Qed.

Lemma Map_set_elem k v m x : x ∈ Map_set k v m → x = (k, v) ∨ x ∈ m.
Proof.
  induction m as [|[k0 v0] m IH]; simpl.
  - intros Hx. apply list_elem_of_singleton in Hx. by left.
  - destruct (decide (k0 = k)) as [->|Hne]; intros Hx.
    + apply elem_of_cons in Hx as [->|Hx]; [by left|]. right. by right.
    + apply elem_of_cons in Hx as [->|Hx]; [right; by left|].
      destruct (IH Hx) as [->|Hin]; [by left|]. right. by right.
Qed.
End JsMap.

(** ** Structure registration *)

Lemma structures_get_app id table table' :
  structures_get id (table ++ table')%list =
  match structures_get id table with
  | Some def => Some def
  | None => structures_get id table'
  end.
Proof.
  induction table as [|[k def] table IH]; simpl; [done|].
  by destruct (decide (k = id)).
Qed.

Lemma registerStructure_registered id definition reg :
  is_Some (structures_get id (structures reg)) →
  registerStructure id definition reg = reg.
Proof. intros [def H]. unfold registerStructure. by rewrite H. Qed.

Lemma registerStructure_inherited id definition reg :
  inherited id = true → registerStructure id definition reg = reg.
Proof.
  intros H. unfold registerStructure. rewrite H.
  by destruct (structures_get id (structures reg)).
Qed.

Lemma registerStructure_fresh id definition reg :
  structures_get id (structures reg) = None → inherited id = false →
  registerStructure id definition reg
  = mkRegistry (structures reg ++ [(id, definition)])%list (structureLoot reg) (biomeLoot reg).
Proof. intros H Hi. unfold registerStructure. by rewrite H, Hi. Qed.

Lemma registerStructure_fresh_get id definition reg :
  structures_get id (structures reg) = None → inherited id = false →
  structures_get id (structures (registerStructure id definition reg)) = Some definition.
Proof.
  intros H Hi. rewrite registerStructure_fresh by done. cbn [structures].
  rewrite structures_get_app, H. cbn [structures_get]. by rewrite decide_True.
Qed.

Lemma registerStructure_twice id R1 R2 reg :
  registerStructure id R2 (registerStructure id R1 reg) = registerStructure id R1 reg.
Proof.
  destruct (structures_get id (structures reg)) as [def|] eqn:H.
  - assert (registerStructure id R1 reg = reg) as ->.
    { apply registerStructure_registered. rewrite H. eauto. }
    apply registerStructure_registered. rewrite H. eauto.
  - destruct (inherited id) eqn:Hi.
    + by rewrite !registerStructure_inherited.
    + apply registerStructure_registered.
      rewrite registerStructure_fresh_get by done. eauto.
Qed.

(** C10. For every id the second of two [registerStructure] calls
    changes nothing and raises no error.  For an id that is not registered
    yet and is not a name inherited from [Object.prototype], the first call
    registers [R1], which is what stays registered after the second. *)
Theorem C10_first_registration_wins (reg : Registry) (id : string) (R1 R2 : Requirement) :
  let reg1 := registerStructure id R1 reg in
  let reg2 := registerStructure id R2 reg1 in
  reg2 = reg1
  ∧ (structures_get id (structures reg) = None → inherited id = false →
     structures_get id (structures reg2) = Some R1).
Proof.
  intros reg1 reg2.
  assert (reg2 = reg1) as Heq by apply registerStructure_twice.
  split; [done|]. intros Hfresh Hi. rewrite Heq.
  by apply registerStructure_fresh_get.
Qed.

Lemma C10_witness :
  structures_get "stronghold" (structures initial_registry) = None
  ∧ inherited "stronghold" = false
  ∧ structures_get "stronghold"
      (structures
         (registerStructure "stronghold" (Threshold [("minecraft:end_portal_frame", 1)])
            (registerStructure "stronghold" (Existence ["minecraft:stone_bricks"])
               initial_registry)))
    = Some (Existence ["minecraft:stone_bricks"]).
Proof.
  split; [reflexivity|]. split; [reflexivity|].
  exact (proj2 (C10_first_registration_wins initial_registry "stronghold"
                  (Existence ["minecraft:stone_bricks"])
                  (Threshold [("minecraft:end_portal_frame", 1)])) eq_refl eq_refl).
Defined.

(** The two calls for an id that is registered already, and for a name every
    object inherits, leave what was there: [R1] is never registered. *)
Lemma C10_counterexample :
  structures_get "desert_pyramid"
    (structures
       (registerStructure "desert_pyramid" (Threshold [("minecraft:tnt", 9)])
          (registerStructure "desert_pyramid" (Existence ["minecraft:sand"])
             initial_registry)))
  ≠ Some (Existence ["minecraft:sand"])
  ∧ structures_get "constructor"
      (structures
         (registerStructure "constructor" (Threshold [("minecraft:tnt", 9)])
            (registerStructure "constructor" (Existence ["minecraft:sand"])
               initial_registry)))
    = None.
Proof. split; [vm_compute; discriminate|vm_compute; reflexivity]. Qed.

(** ** Loot resolver *)

Lemma Map_get_accumulate i m e :
  Map_get i (accumulate m e) =
  if decide (item e = i)
  then Some (PrimFloat.add (default 0%float (Map_get i m)) (chance e))
  else Map_get i m.
Proof.
  unfold accumulate. rewrite Map_get_set.
  destruct (decide (item e = i)) as [->|Hne]; done.
Qed.

Lemma chancesFor_cons i e table :
  chancesFor i (e :: table) =
  if decide (item e = i) then chance e :: chancesFor i table else chancesFor i table.
Proof. unfold chancesFor. rewrite filter_cons. by destruct (decide (item e = i)). Qed.

Lemma chancesFor_app i t1 t2 :
  chancesFor i (t1 ++ t2)%list = (chancesFor i t1 ++ chancesFor i t2)%list.
Proof. unfold chancesFor. by rewrite filter_app, fmap_app. Qed.

Lemma Map_get_fold_accumulate i table m :
  Map_get i (fold_left accumulate table m) =
  match chancesFor i table with
  | [] => Map_get i m
  | cs => Some (fold_left PrimFloat.add cs (default 0%float (Map_get i m)))
  end.
Proof.
  revert m. induction table as [|e table IH]; intros m; [done|].
  cbn [fold_left]. rewrite IH, chancesFor_cons, Map_get_accumulate.
  destruct (decide (item e = i)) as [He|Hne]; [|done].
  by destruct (chancesFor i table) as [|c cs].
Qed.

Lemma fold_skipping context table m :
  fold_left (fun finalLoot entry =>
               if skipped entry context then finalLoot else accumulate finalLoot entry)
            table m
  = fold_left accumulate (applicable context table) m.
Proof.
  revert m. induction table as [|e table IH]; intros m; simpl; [done|].
  unfold applicable. rewrite filter_cons. fold (applicable context table).
  destruct (skipped e context) eqn:Hs.
  - rewrite decide_False by done. apply IH.
  - rewrite decide_True by done. simpl. apply IH.
Qed.

Lemma mergeLootTables_fold biomeTable structureTable context :
  mergeLootTables biomeTable structureTable context =
  fold_left accumulate
    (default [] biomeTable ++ applicable context (default [] structureTable))%list [].
Proof.
  unfold mergeLootTables. rewrite fold_left_app.
  destruct biomeTable as [bt|], structureTable as [st|]; simpl;
    by rewrite ?fold_skipping.
Qed.

Lemma accumulate_NoDup m e : NoDup m.*1 → NoDup (accumulate m e).*1.
Proof. apply Map_set_NoDup. Qed.

Lemma fold_accumulate_NoDup table m :
  NoDup m.*1 → NoDup (fold_left accumulate table m).*1.
Proof.
  revert m. induction table as [|e table IH]; intros m Hm; simpl; [done|].
  by apply IH, accumulate_NoDup.
Qed.

Lemma skipped_true_iff e context :
  skipped e context = true ↔
  ∃ cond, conditions e = Some cond ∧
    ((∃ d, cond_dimension cond = Some d ∧ d ≠ "" ∧ d ≠ dimensionId context)
     ∨ (∃ biomes, cond_biomes cond = Some biomes ∧ biomeId context ∉ biomes)).
Proof.
  unfold skipped. destruct (conditions e) as [cond|]; [|split; [done|by intros (?&?&_)]].
  rewrite orb_true_iff. split.
  - intros [H|H]; exists cond; (split; [done|]).
    + left. destruct (cond_dimension cond) as [d|]; [|done].
      apply andb_prop in H as [H1 H2].
      apply negb_true_iff, bool_decide_eq_false in H1, H2. eauto.
    + right. destruct (cond_biomes cond) as [bs|]; [|done].
      apply negb_true_iff, bool_decide_eq_false in H. eauto.
  - intros (c & [= <-] & [(d & -> & H1 & H2)|(bs & -> & H)]).
    + left. apply andb_true_intro.
      split; apply negb_true_iff, bool_decide_eq_false; done.
    + right. by apply negb_true_iff, bool_decide_eq_false.
Qed.

(** C4. The merged loot table maps an item to the sum, accumulated
    from 0 in table order with the addition of JavaScript numbers, of the
    chances its biome entries hold for it and of the chances of the structure
    entries for it that are not skipped; an item no applied entry names is
    absent.  A structure entry is skipped exactly when it has conditions with
    a non-empty dimension other than the context's, or with a biome list that
    does not contain the context's biome.  Biome 0.3 and structure 0.4 for one
    item give 0.7; the sum is not clamped: 0.6 and 0.7 give
    1.2999999999999998, above 1. *)
Theorem C4_merge_sums_chances
    (biomeTable structureTable : option (list LootEntry)) (context : Context)
    (i : string) :
  let biome := chancesFor i (default [] biomeTable) in
  let structure := chancesFor i (applicable context (default [] structureTable)) in
  Map_get i (mergeLootTables biomeTable structureTable context)
  = match (biome ++ structure)%list with
    | [] => None
    | cs => Some (sumChances cs)
    end
  ∧ NoDup (mergeLootTables biomeTable structureTable context).*1
  ∧ (∀ e, skipped e context = true ↔
       ∃ cond, conditions e = Some cond ∧
         ((∃ d, cond_dimension cond = Some d ∧ d ≠ "" ∧ d ≠ dimensionId context)
          ∨ (∃ biomes, cond_biomes cond = Some biomes ∧ biomeId context ∉ biomes)))
  ∧ mergeLootTables (Some [mkLootEntry "x" 0.3%float None])
                    (Some [mkLootEntry "x" 0.4%float None]) context
    = [("x", 0.7%float)]
  ∧ mergeLootTables (Some [mkLootEntry "x" 0.6%float None])
                    (Some [mkLootEntry "x" 0.7%float None]) context
    = [("x", 1.2999999999999998%float)]
  ∧ PrimFloat.ltb 1%float 1.2999999999999998%float = true.
Proof.
  intros biome structure. split; [|split; [|split; [|split; [|split]]]].
  - rewrite mergeLootTables_fold, Map_get_fold_accumulate, chancesFor_app.
    fold biome structure. by destruct (biome ++ structure)%list.
  - rewrite mergeLootTables_fold. apply fold_accumulate_NoDup. apply NoDup_nil_2.
  - intros e. apply skipped_true_iff.
  - reflexivity.
  - reflexivity.
  - reflexivity.
Qed.

(** An entry whose [conditions.dimension] is the empty string is not skipped,
    whatever the dimension of the context: the condition is tested for
    truthiness first. *)
Lemma C4_counterexample :
  cond_dimension (mkConditions (Some "") None) = Some ""
  ∧ "" ≠ dimensionId (mkContext "minecraft:plains" "minecraft:overworld")
  ∧ skipped (mkLootEntry "x" 0.5%float (Some (mkConditions (Some "") None)))
            (mkContext "minecraft:plains" "minecraft:overworld") = false
  ∧ mergeLootTables None
      (Some [mkLootEntry "x" 0.5%float (Some (mkConditions (Some "") None))])
      (mkContext "minecraft:plains" "minecraft:overworld")
    = [("x", 0.5%float)].
Proof. split; [reflexivity|]. split; [discriminate|]. split; reflexivity. Qed.

(** ** The order of JavaScript numbers *)

Ltac sf_compare_cases :=
  repeat match goal with
         | |- context [Z.compare ?a ?b] => destruct (Z.compare_spec a b)
         | |- context [Pos.compare ?a ?b] => destruct (Pos.compare_spec a b)
         end;
  cbn; try congruence; try lia.

Lemma SFltb_irrefl a : SFltb a a = false.
Proof.
  unfold SFltb. destruct a as [[]|[]| |[] m e]; cbn; try done;
    rewrite ?Pos.compare_cont_spec; cbn; rewrite Z.compare_refl, Pos.compare_refl; done.
Qed.

Lemma SFltb_trans a b c : SFltb a b = true → SFltb b c = true → SFltb a c = true.
Proof.
  unfold SFltb.
  destruct a as [[]|[]| |[] ma ea], b as [[]|[]| |[] mb eb], c as [[]|[]| |[] mc ec];
    cbn; try congruence; rewrite ?Pos.compare_cont_spec; cbn; sf_compare_cases.
Qed.

Lemma SFltb_leb_trans a b c : SFltb a b = true → SFleb b c = true → SFltb a c = true.
Proof.
  unfold SFltb, SFleb.
  destruct a as [[]|[]| |[] ma ea], b as [[]|[]| |[] mb eb], c as [[]|[]| |[] mc ec];
    cbn; try congruence; rewrite ?Pos.compare_cont_spec; cbn; sf_compare_cases.
Qed.

Lemma SFleb_ltb_trans a b c : SFleb a b = true → SFltb b c = true → SFltb a c = true.
Proof.
  unfold SFltb, SFleb.
  destruct a as [[]|[]| |[] ma ea], b as [[]|[]| |[] mb eb], c as [[]|[]| |[] mc ec];
    cbn; try congruence; rewrite ?Pos.compare_cont_spec; cbn; sf_compare_cases.
Qed.

Lemma SFltb_leb a b : SFltb a b = true → SFleb a b = true.
Proof.
  unfold SFltb, SFleb. destruct (SFcompare a b) as [[]|]; congruence.
Qed.

Lemma SFltb_not_leb a b : SFltb a b = true → SFleb b a = false.
Proof.
  unfold SFltb, SFleb.
  destruct a as [[]|[]| |[] ma ea], b as [[]|[]| |[] mb eb];
    cbn; try congruence; rewrite ?Pos.compare_cont_spec; cbn; sf_compare_cases.
Qed.

(** An entry that does not beat [k] does not beat one that beat [k]. *)
Lemma SFltb_unbeaten a b c : SFltb a c = false → SFltb a b = true → SFltb b c = false.
Proof.
  intros Hac Hab. destruct (SFltb b c) eqn:Hbc; [|done].
  by rewrite (SFltb_trans a b c Hab Hbc) in Hac.
Qed.

Lemma ltb_irrefl (x : float) : PrimFloat.ltb x x = false.
Proof. rewrite ltb_spec. apply SFltb_irrefl. Qed.

Lemma ltb_unbeaten (k k' x : float) :
  PrimFloat.ltb k x = false → PrimFloat.ltb k k' = true → PrimFloat.ltb k' x = false.
Proof. rewrite !ltb_spec. apply SFltb_unbeaten. Qed.

Lemma ltb_leb_leb (a b c : float) :
  PrimFloat.ltb a b = true → PrimFloat.leb b c = true → PrimFloat.leb a c = true.
Proof.
  rewrite !ltb_spec, !leb_spec. intros H1 H2.
  by apply SFltb_leb, (SFltb_leb_trans _ _ _ H1 H2).
Qed.

Lemma ltb_leb_not_leb (a b c : float) :
  PrimFloat.ltb a b = true → PrimFloat.leb b c = true → PrimFloat.leb c a = false.
Proof.
  rewrite !ltb_spec, !leb_spec. intros H1 H2.
  by apply SFltb_not_leb, (SFltb_leb_trans _ _ _ H1 H2).
Qed.

(** ** Loot registration *)

Lemma Map_set_keyed e m : keyed m → keyed (Map_set (item e) e m).
Proof.
  unfold keyed. induction m as [|[k0 v0] m IH]; simpl; intros Hm.
  - by constructor.
  - apply Forall_cons in Hm as [H0 Hm].
    destruct (decide (k0 = item e)); constructor; auto.
Qed.

Lemma mergeRegistered_folds existing loot :
  mergeRegistered existing loot =
  Map_values (fold_left incoming loot
                (fold_left (fun map entry => Map_set (item entry) entry map) existing [])).
Proof. reflexivity. Qed.

Lemma incoming_cases map entry :
  incoming map entry = map ∨ incoming map entry = Map_set (item entry) entry map.
Proof.
  unfold incoming. destruct (Map_get _ _); [|by right].
  destruct (PrimFloat.ltb _ _); [by right|by left].
Qed.

Lemma fold_set_inv existing m :
  keyed m → NoDup m.*1 →
  let m' := fold_left (fun map entry => Map_set (item entry) entry map) existing m in
  keyed m' ∧ NoDup m'.*1 ∧ (∀ kv, kv ∈ m' → kv ∈ m ∨ kv.2 ∈ existing).
Proof.
  cbv zeta. revert m. induction existing as [|e existing IH]; intros m Hk Hn; simpl.
  - repeat split; auto.
  - destruct (IH (Map_set (item e) e m)) as (Hk' & Hn' & Hin').
    { by apply Map_set_keyed. } { by apply Map_set_NoDup. }
    repeat split; [done|done|].
    intros kv Hkv. destruct (Hin' kv Hkv) as [H|H].
    + apply Map_set_elem in H as [->|H]; [right; by left|by left].
    + right. by right.
Qed.

Lemma fold_incoming_inv loot m :
  keyed m → NoDup m.*1 →
  let m' := fold_left incoming loot m in
  keyed m' ∧ NoDup m'.*1 ∧ (∀ kv, kv ∈ m' → kv ∈ m ∨ kv.2 ∈ loot).
Proof.
  cbv zeta. revert m. induction loot as [|e loot IH]; intros m Hk Hn; simpl.
  - repeat split; auto.
  - destruct (IH (incoming m e)) as (Hk' & Hn' & Hin').
    { destruct (incoming_cases m e) as [->| ->]; [done|by apply Map_set_keyed]. }
    { destruct (incoming_cases m e) as [->| ->]; [done|by apply Map_set_NoDup]. }
    repeat split; [done|done|].
    intros kv Hkv. destruct (Hin' kv Hkv) as [H|H]; [|right; by right].
    destruct (incoming_cases m e) as [Hc|Hc]; rewrite Hc in H; [by left|].
    apply Map_set_elem in H as [->|H]; [right; by left|by left].
Qed.

Lemma keyed_items m : keyed m → item <$> Map_values m = m.*1.
Proof.
  unfold keyed, Map_values. induction 1 as [|[k v] m Hkv _ IH]; [done|].
  rewrite !fmap_cons. cbn [fst snd] in *. by rewrite Hkv, IH.
Qed.

Lemma keyed_entryFor i m : keyed m → entryFor i (Map_values m) = Map_get i m.
Proof.
  unfold keyed, Map_values, entryFor. induction 1 as [|[k v] m Hkv _ IH]; [done|].
  rewrite fmap_cons. cbn [fst snd List.find Map_get] in *. rewrite Hkv.
  destruct (decide (k = i)) as [->|Hne].
  - by rewrite bool_decide_eq_true_2.
  - by rewrite bool_decide_eq_false_2.
Qed.

Lemma mergeRegistered_NoDup existing loot :
  NoDup (item <$> mergeRegistered existing loot).
Proof.
  rewrite mergeRegistered_folds.
  destruct (fold_set_inv existing []) as (Hk & Hn & _);
    [constructor|apply NoDup_nil_2|].
  destruct (fold_incoming_inv loot _ Hk Hn) as (Hk' & Hn' & _).
  by rewrite keyed_items.
Qed.

Lemma mergeRegistered_verbatim existing loot k :
  k ∈ mergeRegistered existing loot → k ∈ existing ∨ k ∈ loot.
Proof.
  rewrite mergeRegistered_folds. unfold Map_values. intros Hin.
  apply list_elem_of_fmap in Hin as ([key k'] & -> & Hin). simpl.
  destruct (fold_set_inv existing []) as (Hk & Hn & Hin0);
    [constructor|apply NoDup_nil_2|].
  destruct (fold_incoming_inv loot _ Hk Hn) as (_ & _ & Hin1).
  destruct (Hin1 _ Hin) as [H|H]; [|by right].
  destruct (Hin0 _ H) as [H'|H']; [by apply elem_of_nil in H'|by left].
Qed.

(** Per item, the second loop challenges the kept entry with each incoming
    entry. *)
Lemma Map_get_incoming i m e :
  Map_get i (incoming m e) = challenge i (Map_get i m) e.
Proof.
  unfold incoming, challenge. destruct (decide (item e = i)) as [<-|Hne].
  - destruct (Map_get (item e) m) as [prev|] eqn:Hp.
    + destruct (PrimFloat.ltb _ _); [|done]. by rewrite Map_get_set, decide_True.
    + by rewrite Map_get_set, decide_True.
  - destruct (Map_get (item e) m) as [prev|].
    + destruct (PrimFloat.ltb _ _); [|done]. by rewrite Map_get_set, decide_False.
    + by rewrite Map_get_set, decide_False.
Qed.

Lemma Map_get_fold_incoming i loot m :
  Map_get i (fold_left incoming loot m) = fold_left (challenge i) loot (Map_get i m).
Proof.
  revert m. induction loot as [|e loot IH]; intros m; simpl; [done|].
  by rewrite IH, Map_get_incoming.
Qed.

(** Per item, the first loop keeps the last existing entry. *)
Lemma Map_get_fold_set i existing m :
  Map_get i (fold_left (fun map entry => Map_set (item entry) entry map) existing m)
  = fold_left (fun kept e => if decide (item e = i) then Some e else kept)
              existing (Map_get i m).
Proof.
  revert m. induction existing as [|e existing IH]; intros m; simpl; [done|].
  by rewrite IH, Map_get_set.
Qed.

Lemma fold_last_no_match i (existing : list LootEntry) kept :
  i ∉ item <$> existing →
  fold_left (fun kept e => if decide (item e = i) then Some e else kept) existing kept = kept.
Proof.
  revert kept. induction existing as [|e existing IH]; intros kept Hn; simpl; [done|].
  rewrite fmap_cons, not_elem_of_cons in Hn. destruct Hn as [Hne Hn].
  rewrite decide_False by done. by apply IH.
Qed.

Lemma fold_last_entryFor i existing :
  NoDup (item <$> existing) →
  fold_left (fun kept e => if decide (item e = i) then Some e else kept) existing None
  = entryFor i existing.
Proof.
  unfold entryFor. induction existing as [|e existing IH]; simpl; intros Hnd; [done|].
  apply NoDup_cons in Hnd as [Hn Hnd]. destruct (decide (item e = i)) as [<-|Hne].
  - rewrite bool_decide_eq_true_2 by done. by apply fold_last_no_match.
  - rewrite bool_decide_eq_false_2 by done. by apply IH.
Qed.

Lemma entryFor_merge i existing loot :
  NoDup (item <$> existing) →
  entryFor i (mergeRegistered existing loot)
  = fold_left (challenge i) loot (entryFor i existing).
Proof.
  intros Hnd. rewrite mergeRegistered_folds.
  destruct (fold_set_inv existing []) as (Hk & Hn & _);
    [constructor|apply NoDup_nil_2|].
  destruct (fold_incoming_inv loot _ Hk Hn) as (Hk' & _ & _).
  rewrite keyed_entryFor by done.
  rewrite Map_get_fold_incoming, Map_get_fold_set. simpl.
  by rewrite fold_last_entryFor.
Qed.

(** What a run of challenges leaves for an item: an entry that nothing
    unable to beat the first one beats, and that no challenger beats. *)
Lemma challenge_fold_kept i loot p :
  ∃ k, fold_left (challenge i) loot (Some p) = Some k
       ∧ (∀ x, PrimFloat.ltb (chance p) x = false → PrimFloat.ltb (chance k) x = false)
       ∧ (k = p ∨ (k ∈ loot ∧ item k = i))
       ∧ (∀ e, e ∈ loot → item e = i → PrimFloat.ltb (chance k) (chance e) = false).
Proof.
  revert p. induction loot as [|e loot IH]; intros p; cbn [fold_left].
  - exists p. repeat split; [done|by left|].
    intros e He. by apply elem_of_nil in He.
  - unfold challenge at 2. destruct (decide (item e = i)) as [Hi|Hne].
    + destruct (PrimFloat.ltb (chance p) (chance e)) eqn:Hlt.
      * destruct (IH e) as (k & Hk & Hmono & Hor & Hall). exists k.
        repeat split; [done| |..].
        -- intros x Hx. apply Hmono. by apply (ltb_unbeaten (chance p)).
        -- right. destruct Hor as [->|[? ?]]; [split; [by left|done]|split; [by right|done]].
        -- intros e' He' Hi'. apply elem_of_cons in He' as [->|He']; [|by apply Hall].
           apply Hmono, ltb_irrefl.
      * destruct (IH p) as (k & Hk & Hmono & Hor & Hall). exists k.
        repeat split; [done|done| |].
        -- destruct Hor as [->|[? ?]]; [by left|right; split; [by right|done]].
        -- intros e' He' Hi'. apply elem_of_cons in He' as [->|He']; [|by apply Hall].
           by apply Hmono.
    + destruct (IH p) as (k & Hk & Hmono & Hor & Hall). exists k.
      repeat split; [done|done| |].
      * destruct Hor as [->|[? ?]]; [by left|right; split; [by right|done]].
      * intros e' He' Hi'. apply elem_of_cons in He' as [->|He']; [done|by apply Hall].
Qed.

Lemma challenge_fold_none i loot e :
  e ∈ loot → item e = i →
  ∃ k, fold_left (challenge i) loot None = Some k
       ∧ k ∈ loot ∧ item k = i
       ∧ (∀ e', e' ∈ loot → item e' = i → PrimFloat.ltb (chance k) (chance e') = false).
Proof.
  induction loot as [|e0 loot IH]; intros He Hi; cbn [fold_left].
  - by apply elem_of_nil in He.
  - unfold challenge at 2. destruct (decide (item e0 = i)) as [Hi0|Hne].
    + destruct (challenge_fold_kept i loot e0) as (k & Hk & Hmono & Hor & Hall).
      exists k. repeat split; [done| | |].
      * destruct Hor as [->|[? ?]]; [by left|by right].
      * destruct Hor as [->|[? ?]]; done.
      * intros e' He' Hi'. apply elem_of_cons in He' as [->|He']; [|by apply Hall].
        apply Hmono, ltb_irrefl.
    + apply elem_of_cons in He as [->|He]; [done|].
      destruct (IH He Hi) as (k & Hk & Hin & Hik & Hall).
      exists k. repeat split; [done|by right|done|].
      intros e' He' Hi'. apply elem_of_cons in He' as [->|He']; [done|by apply Hall].
Qed.

(** Ties keep the existing entry: an entry no incoming entry beats stays. *)
Lemma challenge_fold_stays i loot p :
  (∀ e, e ∈ loot → item e = i → PrimFloat.ltb (chance p) (chance e) = false) →
  fold_left (challenge i) loot (Some p) = Some p.
Proof.
  induction loot as [|e loot IH]; intros Hall; cbn [fold_left]; [done|].
  unfold challenge at 2. destruct (decide (item e = i)) as [Hi|Hne].
  - rewrite Hall; [|by left|done]. apply IH. intros e' He'. apply Hall. by right.
  - apply IH. intros e' He'. apply Hall. by right.
Qed.

Lemma entryFor_Some i table k :
  entryFor i table = Some k → k ∈ table ∧ item k = i.
Proof.
  unfold entryFor. intros H. apply find_some in H as [Hin Hb].
  apply bool_decide_eq_true in Hb. split; [by apply list_elem_of_In|done].
Qed.

Lemma entryFor_elem table k :
  NoDup (item <$> table) → k ∈ table → entryFor (item k) table = Some k.
Proof.
  unfold entryFor. induction table as [|e table IH]; simpl; intros Hnd Hin.
  - by apply elem_of_nil in Hin.
  - apply NoDup_cons in Hnd as [Hn Hnd].
    apply elem_of_cons in Hin as [->|Hin].
    + by rewrite bool_decide_eq_true_2.
    + rewrite bool_decide_eq_false_2; [by apply IH|].
      intros He. apply Hn. rewrite He. apply list_elem_of_fmap. by exists k.
Qed.

Lemma entryFor_None i table : entryFor i table = None → i ∉ item <$> table.
Proof.
  unfold entryFor. intros H Hin. apply list_elem_of_fmap in Hin as (e & -> & Hin).
  apply list_elem_of_In in Hin. pose proof (find_none _ _ H e Hin) as Hb.
  simpl in Hb. by apply bool_decide_eq_false in Hb.
Qed.

Lemma best_of_first loot : NoDup (item <$> loot) → best_of loot loot.
Proof.
  intros Hnd. repeat split; [done|done|].
  intros e He. exists e. repeat split; [done|apply ltb_irrefl].
Qed.

Lemma best_of_merge seen stored loot :
  best_of seen stored → best_of (seen ++ loot) (mergeRegistered stored loot).
Proof.
  intros (Hnd & Hsub & Hmax). repeat split.
  - apply mergeRegistered_NoDup.
  - intros k Hk. apply elem_of_app.
    apply mergeRegistered_verbatim in Hk as [Hk|Hk]; [left; by apply Hsub|by right].
  - intros e He. apply elem_of_app in He as [He|He].
    + destruct (Hmax e He) as (k & Hk & Hik & Hle).
      pose proof (entryFor_merge (item e) stored loot Hnd) as Hm.
      rewrite <-Hik, (entryFor_elem _ _ Hnd Hk), Hik in Hm.
      destruct (challenge_fold_kept (item e) loot k) as (k' & Hk' & Hmono & _ & _).
      rewrite Hk' in Hm. apply entryFor_Some in Hm as [Hin Hi].
      exists k'. repeat split; [done|done|by apply Hmono].
    + pose proof (entryFor_merge (item e) stored loot Hnd) as Hm.
      destruct (entryFor (item e) stored) as [p|] eqn:Hp.
      * destruct (challenge_fold_kept (item e) loot p) as (k' & Hk' & _ & _ & Hall).
        rewrite Hk' in Hm. apply entryFor_Some in Hm as [Hin Hi].
        exists k'. repeat split; [done|done|by apply Hall].
      * destruct (challenge_fold_none (item e) loot e He eq_refl)
          as (k' & Hk' & _ & _ & Hall).
        rewrite Hk' in Hm. apply entryFor_Some in Hm as [Hin Hi].
        exists k'. repeat split; [done|done|by apply Hall].
Qed.

(** With an own table for the id, or an id that is no inherited name, the
    registration completes normally. *)
Lemma registerLoot_Some id loot table existing :
  table !! id = Some existing →
  registerLoot id loot table = Normal (<[id := mergeRegistered existing loot]> table).
Proof. intros H. unfold registerLoot. by rewrite H. Qed.

Lemma registerLoot_None id loot table :
  table !! id = None → inherited id = false →
  registerLoot id loot table = Normal (<[id := loot]> table).
Proof. intros H Hi. unfold registerLoot. by rewrite H, Hi. Qed.

Lemma registerLoot_throws id loot table :
  table !! id = None → inherited id = true →
  registerLoot id loot table = Abrupt TypeError table.
Proof. intros H Hi. unfold registerLoot. by rewrite H, Hi. Qed.

Lemma forEach_cons {S A} (a : A) (l : list A) (body : S → A → Completion S) s :
  forEach (a :: l) body s = andThen (body s a) (forEach l body).
Proof.
  unfold forEach. cbn [fold_left andThen]. destruct (body s a) as [s'|e s']; [done|].
  cbn [andThen]. induction l as [|a' l IH]; [done|]. cbn [fold_left andThen]. apply IH.
Qed.

Lemma registerAll_best id loots table seen stored :
  table !! id = Some stored → best_of seen stored →
  ∃ table' stored', registerAll id loots table = Normal table'
                    ∧ table' !! id = Some stored'
                    ∧ best_of (seen ++ concat loots) stored'.
Proof.
  unfold registerAll. revert table seen stored.
  induction loots as [|loot loots IH]; intros table seen stored Ht Hb.
  - exists table, stored. by rewrite app_nil_r.
  - rewrite forEach_cons, (registerLoot_Some _ _ _ _ Ht). cbn [andThen concat].
    destruct (IH (<[id := mergeRegistered stored loot]> table) (seen ++ loot)%list
                 (mergeRegistered stored loot)) as (table' & stored' & Hr & Hs & Hb').
    + by rewrite lookup_insert_eq.
    + by apply best_of_merge.
    + exists table', stored'. by rewrite app_assoc.
Qed.

(** C2. The first registration for an id stores the list as it is given: a
    list that names an item twice is stored with both entries, the lower
    chance included.  A later registration for the id, even of the empty
    list, then rebuilds the table through the map and keeps for the item the
    entry stored last, here the one with the lower chance. *)
Theorem C2_first_registration_keeps_duplicates :
  registerBiomeLoot "minecraft:plains"
    [mkLootEntry "x" 0.2%float None; mkLootEntry "x" 0.5%float None] initial_registry
  = Normal (mkRegistry initial_structures ∅
              {[ "minecraft:plains" :=
                   [mkLootEntry "x" 0.2%float None; mkLootEntry "x" 0.5%float None] ]})
  ∧ ¬ NoDup (item <$> [mkLootEntry "x" 0.2%float None; mkLootEntry "x" 0.5%float None])
  ∧ registerStructureLoot "desert_pyramid"
      [mkLootEntry "x" 0.2%float None; mkLootEntry "x" 0.5%float None] initial_registry
    = Normal (mkRegistry initial_structures
                {[ "desert_pyramid" :=
                     [mkLootEntry "x" 0.2%float None; mkLootEntry "x" 0.5%float None] ]} ∅)
  ∧ andThen (registerBiomeLoot "minecraft:plains"
               [mkLootEntry "x" 0.5%float None; mkLootEntry "x" 0.2%float None]
               initial_registry)
            (registerBiomeLoot "minecraft:plains" [])
    = Normal (mkRegistry initial_structures ∅
                {[ "minecraft:plains" := [mkLootEntry "x" 0.2%float None] ]}).
Proof.
  split; [reflexivity|]. split; [|split].
  - intros H. apply NoDup_cons in H as [H _]. apply H. by left.
  - reflexivity.
  - vm_compute. reflexivity.
Qed.

(** Registering 0.2 and then 0.5 for one item of a biome stores the one entry
    with chance 0.5. *)
Example registerBiomeLoot_higher_chance :
  andThen (registerBiomeLoot "minecraft:plains" [mkLootEntry "x" 0.2%float None]
             initial_registry)
          (registerBiomeLoot "minecraft:plains" [mkLootEntry "x" 0.5%float None])
  = Normal (mkRegistry initial_structures ∅
              {[ "minecraft:plains" := [mkLootEntry "x" 0.5%float None] ]}).
Proof. vm_compute. reflexivity. Qed.

(** ** Structure classifier *)

Lemma fold_left_bind {A B C} (f : A → C → A) (g : B → list C) (l : list B) (a : A) :
  fold_left f (l ≫= g) a = fold_left (fun a x => fold_left f (g x) a) l a.
Proof.
  revert a. induction l as [|x l IH]; intros a; [done|].
  rewrite bind_cons, fold_left_app. cbn [fold_left]. apply IH.
Qed.

Lemma fold_left_ext {A B} (f g : A → B → A) (l : list B) (a : A) :
  (∀ a x, f a x = g a x) → fold_left f l a = fold_left g l a.
Proof.
  intros Hfg. revert a. induction l as [|x l IH]; intros a; simpl; [done|].
  by rewrite Hfg, IH.
Qed.

(** The three nested loops visit the cells of the cube one after the other. *)
Lemma scanArea_cube dim origin radius :
  scanArea dim origin radius =
  fold_left (fun acc d => scanCell dim origin acc d.1.1 d.1.2 d.2) (cube radius) (∅, 0).
Proof.
  unfold scanArea, cube. rewrite fold_left_bind.
  apply fold_left_ext. intros acc dx. rewrite fold_left_bind.
  apply fold_left_ext. intros acc' dy. rewrite fold_left_bind.
  apply fold_left_ext. intros acc'' dz. reflexivity.
Qed.

Lemma countOf_nil id : countOf id [] = 0.
Proof. reflexivity. Qed.

Lemma countOf_cons id x seen :
  countOf id (x :: seen) = (if decide (x = id) then 1 else 0) + countOf id seen.
Proof.
  unfold countOf. rewrite filter_cons.
  destruct (decide (x = id)); cbn [length]; lia.
Qed.

Lemma countOf_nonneg id seen : 0 <= countOf id seen.
Proof. unfold countOf. lia. Qed.

Lemma scanCell_blockAt dim origin acc d :
  scanCell dim origin acc d.1.1 d.1.2 d.2 =
  match blockAt dim origin d with
  | None => acc
  | Some id =>
      (<[id := default 0 (acc.1 !! id) + 1]> acc.1,
       if decide (id = "minecraft:chest") then acc.2 + 1 else acc.2)
  end.
Proof. reflexivity. Qed.

(** The counters after scanning a run of cells. *)
Lemma scan_counts dim origin cells (acc : gmap string Z * Z) :
  let acc' := fold_left (fun acc d => scanCell dim origin acc d.1.1 d.1.2 d.2) cells acc in
  let seen := omap (blockAt dim origin) cells in
  (∀ id, acc'.1 !! id =
         if decide (countOf id seen = 0) then acc.1 !! id
         else Some (default 0 (acc.1 !! id) + countOf id seen))
  ∧ acc'.2 = acc.2 + countOf "minecraft:chest" seen.
Proof.
  cbv zeta. revert acc. induction cells as [|d cells IH]; intros acc.
  - cbn [fold_left omap]. split; [|rewrite countOf_nil; lia].
    intros id. by rewrite countOf_nil, decide_True.
  - cbn [fold_left omap list_omap]. rewrite scanCell_blockAt.
    destruct (blockAt dim origin d) as [b|] eqn:Hb; [|apply IH].
    destruct (IH (<[b := default 0 (acc.1 !! b) + 1]> acc.1,
                  if decide (b = "minecraft:chest") then acc.2 + 1 else acc.2))
      as [Hbc Hcc].
    cbn [fst snd] in *. split.
    + intros id. rewrite Hbc, countOf_cons.
      pose proof (countOf_nonneg id (omap (blockAt dim origin) cells)).
      destruct (decide (b = id)) as [->|Hne]; cbn beta iota.
      * rewrite lookup_insert_eq. cbn [default]. unfold Datatypes.id.
        destruct (decide (countOf id (omap (blockAt dim origin) cells) = 0)) as [H0|H0].
        -- rewrite decide_False by lia. f_equal. lia.
        -- rewrite decide_False by lia. f_equal. lia.
      * rewrite lookup_insert_ne by done.
        destruct (decide (countOf id (omap (blockAt dim origin) cells) = 0)) as [H0|H0].
        -- rewrite decide_True by lia. done.
        -- rewrite decide_False by lia. f_equal.
    + rewrite Hcc, countOf_cons.
      destruct (decide (b = "minecraft:chest")); cbn beta iota; lia.
Qed.

Lemma scanArea_counts dim origin radius :
  (∀ id, (scanArea dim origin radius).1 !! id =
         if decide (countOf id (scanned dim origin radius) = 0) then None
         else Some (countOf id (scanned dim origin radius)))
  ∧ (scanArea dim origin radius).2 = countOf "minecraft:chest" (scanned dim origin radius).
Proof.
  rewrite scanArea_cube.
  destruct (scan_counts dim origin (cube radius) (∅, 0)) as [Hbc Hcc].
  cbn [fst snd] in *. fold (scanned dim origin radius) in *. split.
  - intros id. rewrite Hbc, lookup_empty. cbn [default].
    destruct (decide _); [done|]. f_equal; lia.
  - rewrite Hcc. lia.
Qed.

Lemma existenceLoop_existsb blockCount count blocks :
  (∀ id, is_Some (blockCount !! id) ↔ 1 <= count id) →
  existenceLoop blockCount blocks = existsb (fun blockId => (1 <=? count blockId)%Z) blocks.
Proof.
  intros Hc. induction blocks as [|b blocks IH]; [done|].
  cbn [existenceLoop existsb]. rewrite <-IH.
  destruct (decide (1 <= count b)) as [H|H].
  - rewrite bool_decide_eq_true_2 by (by apply Hc).
    by rewrite (proj2 (Z.leb_le _ _) H).
  - rewrite bool_decide_eq_false_2 by (by rewrite Hc).
    by rewrite (proj2 (Z.leb_gt _ _)) by lia.
Qed.

Lemma amountsLoop_forallb blockCount count amounts :
  (∀ id, default 0 (blockCount !! id) = count id) →
  amountsLoop blockCount amounts
  = forallb (fun '(blockId, requiredAmount) => (requiredAmount <=? count blockId)%Z) amounts.
Proof.
  intros Hc. induction amounts as [|[b n] amounts IH]; [done|].
  cbn [amountsLoop forallb]. rewrite <-IH, Hc.
  destruct (Z.ltb_spec (count b) n) as [H|H].
  - by rewrite (proj2 (Z.leb_gt _ _)) by lia.
  - by rewrite (proj2 (Z.leb_le _ _) H).
Qed.

Lemma structuresLoop_find blockCount count table :
  (∀ id, is_Some (blockCount !! id) ↔ 1 <= count id) →
  (∀ id, default 0 (blockCount !! id) = count id) →
  structuresLoop blockCount table =
  match List.find (fun entry => satisfied count entry.2) table with
  | Some (structureId, _) => structureId
  | None => "default"
  end.
Proof.
  intros H1 H2. induction table as [|[sid req] table IH]; [done|].
  cbn [structuresLoop List.find snd]. rewrite IH. destruct req as [blocks|amounts].
  - cbn [satisfied]. rewrite (existenceLoop_existsb _ count) by done.
    by destruct (existsb _ _).
  - cbn [satisfied]. rewrite (amountsLoop_forallb _ count) by done.
    by destruct (forallb _ _).
Qed.

Lemma detectNearbyStructure_classify reg block radius :
  detectNearbyStructure reg block radius =
  classify (fun id => countOf id (scanned (dimension block) (location block) radius))
           (Object_entries (structures reg)).
Proof.
  unfold detectNearbyStructure, classify.
  destruct (scanArea_counts (dimension block) (location block) radius) as [Hbc Hcc].
  destruct (scanArea _ _ _) as [blockCount chestCount]. cbn [fst snd] in *.
  rewrite Hcc. destruct (6 <=? _)%Z; [done|].
  apply structuresLoop_find.
  - intros id. rewrite Hbc.
    pose proof (countOf_nonneg id (scanned (dimension block) (location block) radius)).
    destruct (decide _) as [H0|H0].
    + split; [by intros [? ?]|lia].
    + split; [lia|eauto].
  - intros id. rewrite Hbc. by destruct (decide _) as [->|H0].
Qed.

(** The cube holds every offset within the radius on the three axes, once. *)
Lemma elem_of_offsets radius d : d ∈ offsets radius ↔ - radius <= d <= radius.
Proof. unfold offsets. rewrite elem_of_seqZ. lia. Qed.

Lemma elem_of_cube radius dx dy dz :
  (dx, dy, dz) ∈ cube radius ↔
  - radius <= dx <= radius ∧ - radius <= dy <= radius ∧ - radius <= dz <= radius.
Proof.
  unfold cube. rewrite list_elem_of_bind. split.
  - intros (x & Hx & Hdx). apply list_elem_of_bind in Hx as (y' & Hy & Hdy).
    apply list_elem_of_bind in Hy as (z' & Hz & Hdz).
    apply list_elem_of_singleton in Hz. simplify_eq.
    by rewrite <-!elem_of_offsets.
  - rewrite <-!elem_of_offsets. intros (Hx & Hy & Hz).
    exists dx. split; [|done]. apply list_elem_of_bind. exists dy. split; [|done].
    apply list_elem_of_bind. exists dz. split; [|done]. by apply list_elem_of_singleton.
Qed.



(** ** The order of [Object.entries] *)

Lemma insert_by_index_elem {A} (n : N) (a : A) l x :
  x ∈ insert_by_index n a l ↔ x = (n, a) ∨ x ∈ l.
Proof.
  induction l as [|[m b] l IH]; cbn [insert_by_index].
  - rewrite list_elem_of_singleton. split; [by left|]. intros [?|H]; [done|].
    by apply elem_of_nil in H.
  - destruct (decide (n < m)%N).
    + by rewrite elem_of_cons.
    + rewrite !elem_of_cons, IH. tauto.
Qed.



Lemma elem_of_index_entries {V} (table : list (string * V)) n e :
  (n, e) ∈ index_entries table ↔ e ∈ table ∧ array_index e.1 = Some n.
Proof.
  unfold index_entries. induction table as [|e0 table IH]; cbn [foldr].
  - split; [intros H; by apply elem_of_nil in H|intros [H _]; by apply elem_of_nil in H].
  - rewrite elem_of_cons. destruct (array_index e0.1) as [n0|] eqn:H0.
    + rewrite insert_by_index_elem, IH. split.
      * intros [[= -> ->]|[? ?]]; [split; [by left|done]|split; [by right|done]].
      * intros [[->|?] Hn]; [left; congruence|by right].
    + rewrite IH. split; [intros [? ?]; split; [by right|done]|].
      intros [[->|?] Hn]; [congruence|done].
Qed.

Lemma elem_of_Object_entries {V} (table : list (string * V)) e :
  e ∈ Object_entries table ↔ e ∈ table.
Proof.
  unfold Object_entries. rewrite elem_of_app, list_elem_of_fmap, list_elem_of_filter. split.
  - intros [([n e'] & -> & Hin)|[_ Hin]]; [|done].
    by apply elem_of_index_entries in Hin as [Hin _].
  - intros Hin. destruct (array_index e.1) as [n|] eqn:Hn; [left|by right].
    exists (n, e). split; [done|]. by apply elem_of_index_entries.
Qed.



Lemma Object_entries_snoc {V} (table : list (string * V)) e :
  array_index e.1 = None → Object_entries (table ++ [e]) = (Object_entries table ++ [e])%list.
Proof.
  intros He. unfold Object_entries, index_entries.
  rewrite foldr_app. cbn [foldr]. rewrite He.
  rewrite filter_app, filter_cons, decide_True by done.
  by rewrite filter_nil, app_assoc.
Qed.





(** The sample desert holds the blocks of a desert pyramid and one chest. *)
Example detect_desert_pyramid :
  detectNearbyStructure initial_registry sample_chest 6 = "desert_pyramid".
Proof. vm_compute. reflexivity. Qed.

(** ** Injector and orchestrator *)

Lemma for_of_dynamicProperties {A} (l : list A) (body : A → Host unit) w :
  (∀ a w', dynamicProperties (body a w').2 = dynamicProperties w') →
  dynamicProperties (for_of l body w).2 = dynamicProperties w.
Proof.
  intros Hbody. revert w. induction l as [|a l IH]; intros w; [done|].
  cbn [for_of]. unfold bind. by rewrite IH, Hbody.
Qed.

Lemma roll_dynamicProperties container entry w :
  dynamicProperties (roll container entry w).2 = dynamicProperties w.
Proof.
  destruct entry as [itemId c]. unfold roll, bind, Math_random. cbn [fst snd].
  by destruct (PrimFloat.leb _ _).
Qed.

Lemma injectLoot_unfold lootTable block w :
  injectLoot lootTable block w =
  if decide (Map_size lootTable = 0%nat) then (tt, w)
  else match containers w !! (dim_id (dimension block), location block) with
       | None => (tt, w)
       | Some _ =>
           for_of lootTable (roll (dim_id (dimension block), location block)) w
       end.
Proof.
  unfold injectLoot. destruct (decide _); [done|].
  unfold bind, getContainer. cbn [fst snd].
  by destruct (containers w !! _).
Qed.

Lemma injectLoot_dynamicProperties lootTable block w :
  dynamicProperties (injectLoot lootTable block w).2 = dynamicProperties w.
Proof.
  rewrite injectLoot_unfold. destruct (decide _); [done|].
  destruct (containers w !! _); [|done].
  apply for_of_dynamicProperties. intros a w'. apply roll_dynamicProperties.
Qed.

Lemma injectLoot_empty lootTable block w :
  Map_size lootTable = 0%nat → injectLoot lootTable block w = (tt, w).
Proof. intros H. rewrite injectLoot_unfold. by rewrite decide_True. Qed.

Lemma resolve_ineligible reg block w :
  (canInjectChest block w).1 = false → resolve reg block w = (tt, w).
Proof.
  intros H. unfold resolve, bind. rewrite H. cbn [negb].
  by rewrite canInjectChest_pure.
Qed.

Lemma resolve_eligible reg block w :
  (canInjectChest block w).1 = true →
  resolve reg block w =
  injectLoot (resolvedLoot reg block) block (markChestOpened block w).2.
Proof.
  intros H. unfold resolve, bind. rewrite H. cbn [negb].
  rewrite canInjectChest_pure. fold (resolvedLoot reg block).
  destruct (decide (Map_size (resolvedLoot reg block) = 0%nat)) as [H0|H0]; [|done].
  by rewrite injectLoot_empty.
Qed.

Lemma chestSet_dynamicProperties base pos w w' :
  dynamicProperties w = dynamicProperties w' → chestSet base pos w = chestSet base pos w'.
Proof. unfold chestSet. by intros ->. Qed.

(** C1. For a container that passes the eligibility check, [resolve] is
    [markChestOpened] followed by the injection of the merged table: the mark
    does not depend on the merged table, is made when it is empty too (the
    world is then the marked one), and precedes the injection.  The position
    is in its opened set afterwards, so a second [resolve] at the position,
    with any registry, changes nothing. *)
Theorem C1_resolve_marks_opened (reg : Registry) (block : Block) (w : World) :
  (canInjectChest block w).1 = true →
  let marked := (markChestOpened block w).2 in
  let w' := (resolve reg block w).2 in
  w' = (injectLoot (resolvedLoot reg block) block marked).2
  ∧ (Map_size (resolvedLoot reg block) = 0%nat → w' = marked)
  ∧ dynamicProperties w' = dynamicProperties marked
  ∧ posKey (location block) ∈ chestSet OPENED_CHESTS_KEY (location block) w'
  ∧ (∀ reg' block', location block' = location block →
       resolve reg' block' w' = (tt, w')).
Proof.
  intros Hok marked w'.
  assert (w' = (injectLoot (resolvedLoot reg block) block marked).2) as Hw'.
  { unfold w'. by rewrite resolve_eligible. }
  assert (dynamicProperties w' = dynamicProperties marked) as Hdp.
  { rewrite Hw'. apply injectLoot_dynamicProperties. }
  assert (posKey (location block) ∈ chestSet OPENED_CHESTS_KEY (location block) w') as Hin.
  { rewrite (chestSet_dynamicProperties _ _ _ _ Hdp).
    apply elem_opened_after_markChestOpened. by left. }
  split; [done|]. split; [|split; [done|split; [done|]]].
  - intros H0. rewrite Hw'. by rewrite injectLoot_empty.
  - intros reg' block' Hloc. apply resolve_ineligible.
    apply canInjectChest_false. right. by rewrite Hloc.
Qed.

(** C5. For a container whose position is in the placed set or in the opened
    set of its region, [resolve] returns with the world unchanged: no dynamic
    property, no inventory and no random draw is touched. *)
Theorem C5_resolve_ineligible_is_noop (reg : Registry) (block : Block) (w : World) :
  posKey (location block) ∈ chestSet PLACED_CHESTS_KEY (location block) w
  ∨ posKey (location block) ∈ chestSet OPENED_CHESTS_KEY (location block) w →
  resolve reg block w = (tt, w).
Proof. intros H. apply resolve_ineligible. by apply canInjectChest_false. Qed.

Lemma C1_witness :
  (canInjectChest sample_chest sample_world).1 = true
  ∧ posKey (location sample_chest)
    ∈ chestSet OPENED_CHESTS_KEY (location sample_chest)
        (resolve sample_registry sample_chest sample_world).2.
Proof.
  assert ((canInjectChest sample_chest sample_world).1 = true) as H.
  { vm_compute. reflexivity. }
  split; [exact H|].
  exact (proj1 (proj2 (proj2 (proj2
           (C1_resolve_marks_opened sample_registry sample_chest sample_world H))))).
Defined.

Lemma C5_witness :
  (posKey (location sample_chest)
     ∈ chestSet PLACED_CHESTS_KEY (location sample_chest) placed_world
   ∨ posKey (location sample_chest)
     ∈ chestSet OPENED_CHESTS_KEY (location sample_chest) placed_world)
  ∧ resolve sample_registry sample_chest placed_world = (tt, placed_world).
Proof.
  assert (posKey (location sample_chest)
            ∈ chestSet PLACED_CHESTS_KEY (location sample_chest) placed_world
          ∨ posKey (location sample_chest)
            ∈ chestSet OPENED_CHESTS_KEY (location sample_chest) placed_world) as H.
  { left. apply (bool_decide_unpack _). vm_compute. exact I. }
  split; [exact H|].
  exact (C5_resolve_ineligible_is_noop sample_registry sample_chest placed_world H).
Defined.

(** The end-to-end scenario: the chest at (0,64,0) of the sample desert gets
    one gold ingot, is marked opened, and a second [resolve] changes
    nothing. *)
Example resolve_sample_chest :
  let w := (resolve sample_registry sample_chest sample_world).2 in
  containers w !! ("minecraft:overworld", mkPos 0 64 0)
  = Some [mkItemStack "minecraft:gold_ingot" 1]
  ∧ randomCursor w = 1%nat
  ∧ (canInjectChest sample_chest w).1 = false
  ∧ resolve sample_registry sample_chest w = (tt, w).
Proof.
  cbv zeta. split; [by vm_compute|]. split; [by vm_compute|].
  assert ((canInjectChest sample_chest
             (resolve sample_registry sample_chest sample_world).2).1 = false) as H.
  { by vm_compute. }
  split; [exact H|]. by apply resolve_ineligible.
Qed.

(** * Further properties of the code

    ** Region store: round trip and algebra of marks *)

Lemma World_eq w w' :
  dynamicProperties w = dynamicProperties w' → containers w = containers w' →
  randomDraws w = randomDraws w' → randomCursor w = randomCursor w' → w = w'.
Proof. destruct w, w'; simpl; by intros -> -> -> ->. Qed.

(** X1. What [saveChestSet] writes for a position, [getChestSet] reads back
    for every position of the same region and tracking kind; positions of
    other regions read what they read before. *)
Theorem X1_getChestSet_saveChestSet (baseKey : string) (pos pos' : Vector3)
    (set : gset string) (w : World) :
  (getChestSet baseKey pos' (saveChestSet baseKey pos set w).2).1
  = if decide (region_of pos' = region_of pos) then set
    else (getChestSet baseKey pos' w).1.
Proof.
  rewrite !getChestSet_run. cbn [fst]. unfold chestSet, saveChestSet, setDynamicProperty.
  cbn [snd dynamicProperties].
  destruct (decide (region_of pos' = region_of pos)) as [Hr|Hr].
  - rewrite (region_of_key _ _ _ Hr). by rewrite lookup_insert_eq.
  - rewrite lookup_insert_ne; [done|].
    intros Heq. apply Hr. symmetry. by apply regionPropertyKey_inj in Heq.
Qed.

Lemma play_lookup e w k :
  dynamicProperties (play e w).2 !! k =
  if decide (k = event_key e)
  then Some ({[posKey (event_location e)]} ∪ default ∅ (dynamicProperties w !! k))
  else dynamicProperties w !! k.
Proof.
  destruct e as [b|b]; cbn [play event_key event_location].
  - rewrite markChestOpened_run. cbn [snd dynamicProperties]. unfold chestSet.
    destruct (decide (k = _)) as [->|Hne];
      [by rewrite lookup_insert_eq|by rewrite lookup_insert_ne].
  - rewrite markChestPlaced_run. cbn [snd dynamicProperties]. unfold chestSet.
    destruct (decide (k = _)) as [->|Hne];
      [by rewrite lookup_insert_eq|by rewrite lookup_insert_ne].
Qed.

Lemma play_rest e w :
  containers (play e w).2 = containers w
  ∧ randomDraws (play e w).2 = randomDraws w
  ∧ randomCursor (play e w).2 = randomCursor w.
Proof. by destruct e. Qed.

(** X2. Marking a chest twice leaves the world of marking it once, and two
    marks that write different dynamic properties (the other tracking kind, or
    another region) give the same world in both orders.  For two marks in one
    regional set the persisted object lists the keys in the order of the
    marks; nothing is stated for them. *)
Theorem X2_marks_idempotent_commute (e1 e2 : TrackingEvent) (w : World) :
  (play e1 (play e1 w).2).2 = (play e1 w).2
  ∧ (event_key e1 ≠ event_key e2 →
     (play e2 (play e1 w).2).2 = (play e1 (play e2 w).2).2).
Proof.
  split.
  - apply World_eq; try (by rewrite ?(proj1 (play_rest _ _)),
        ?(proj1 (proj2 (play_rest _ _))), ?(proj2 (proj2 (play_rest _ _)))).
    apply map_eq. intros k. rewrite !play_lookup.
    destruct (decide (k = event_key e1)); [|done].
    cbn [default]. unfold Datatypes.id. f_equal.
    by rewrite (assoc_L (∪)), (idemp_L (∪)).
  - intros Hne.
    apply World_eq; try (by rewrite ?(proj1 (play_rest _ _)),
        ?(proj1 (proj2 (play_rest _ _))), ?(proj2 (proj2 (play_rest _ _)))).
    apply map_eq. intros k. rewrite !play_lookup.
    destruct (decide (k = event_key e1)), (decide (k = event_key e2)); try done.
    congruence.
Qed.

Lemma X2_witness :
  event_key (MarkOpened sample_chest) ≠ event_key (MarkPlaced sample_chest)
  ∧ (play (MarkPlaced sample_chest) (play (MarkOpened sample_chest) sample_world).2).2
    = (play (MarkOpened sample_chest) (play (MarkPlaced sample_chest) sample_world).2).2.
Proof.
  assert (event_key (MarkOpened sample_chest) ≠ event_key (MarkPlaced sample_chest)) as H.
  { discriminate. }
  split; [exact H|].
  exact (proj2 (X2_marks_idempotent_commute (MarkOpened sample_chest)
                  (MarkPlaced sample_chest) sample_world) H).
Defined.

(** ** Injector: draws and inventory *)

Lemma roll_run container itemId chance w :
  roll container (itemId, chance) w =
  (tt, mkWorld (dynamicProperties w)
               (if PrimFloat.leb (randomDraws w (randomCursor w)) chance
                then alter (fun inv => (inv ++ [mkItemStack itemId 1])%list) container
                           (containers w)
                else containers w)
               (randomDraws w) (S (randomCursor w))).
Proof.
  unfold roll, bind, Math_random. cbn [fst snd].
  by destruct (PrimFloat.leb _ _).
Qed.

(** The loop of the injector on a container that holds [inv]. *)
Lemma roll_loop container lootTable inv w :
  containers w !! container = Some inv →
  for_of lootTable (roll container) w =
  (tt, mkWorld (dynamicProperties w)
               (<[container := (inv ++ rolled (randomDraws w) (randomCursor w) lootTable)%list]>
                  (containers w))
               (randomDraws w) (randomCursor w + length lootTable)).
Proof.
  revert inv w. induction lootTable as [|[itemId chance] rest IH]; intros inv w Hinv.
  - cbn [for_of rolled length]. unfold ret. f_equal.
    apply World_eq; cbn; try done; try lia. by rewrite app_nil_r, insert_id.
  - cbn [for_of rolled length]. unfold bind. rewrite roll_run. cbn [fst snd].
    destruct (PrimFloat.leb (randomDraws w (randomCursor w)) chance).
    + erewrite IH; cbn [containers dynamicProperties randomDraws randomCursor].
      2:{ rewrite lookup_alter_eq, Hinv. reflexivity. }
      f_equal. apply World_eq; cbn; try done; try lia.
      rewrite <-app_assoc. cbn [app]. apply map_eq. intros h.
      destruct (decide (h = container)) as [->|Hne].
      * by rewrite !lookup_insert_eq.
      * by rewrite !lookup_insert_ne, lookup_alter_ne by done.
    + erewrite IH; cbn [containers dynamicProperties randomDraws randomCursor];
        [|exact Hinv].
      f_equal. apply World_eq; cbn; try done; lia.
Qed.

Lemma injectLoot_run (lootTable : JsMap float) (block : Block) (w : World) :
  let h := (dim_id (dimension block), location block) in
  injectLoot lootTable block w =
  (tt, match containers w !! h with
       | None => w
       | Some inv =>
           mkWorld (dynamicProperties w)
                   (<[h := (inv ++ rolled (randomDraws w) (randomCursor w) lootTable)%list]>
                      (containers w))
                   (randomDraws w) (randomCursor w + Map_size lootTable)
       end).
Proof.
  cbv zeta. rewrite injectLoot_unfold.
  destruct (containers w !! _) as [inv|] eqn:Hinv.
  - destruct (decide (Map_size lootTable = 0%nat)) as [H0|H0].
    + destruct lootTable; [|done]. cbn [rolled Map_size length]. f_equal.
      apply World_eq; cbn; try done; try lia. by rewrite app_nil_r, insert_id.
    + by apply roll_loop.
  - by destruct (decide _).
Qed.

Lemma rolled_all draws n lootTable :
  (∀ i c, (i, c) ∈ lootTable → ∀ k, PrimFloat.leb (draws k) c = true) →
  rolled draws n lootTable = (fun e => mkItemStack e.1 1) <$> lootTable.
Proof.
  revert n. induction lootTable as [|[i c] rest IH]; intros n Hall; [done|].
  cbn [rolled]. rewrite fmap_cons. cbn [fst].
  rewrite (Hall i c) by (by left).
  f_equal. apply IH. intros i' c' Hin. apply (Hall i' c'). by right.
Qed.

Lemma rolled_none draws n lootTable :
  (∀ i c, (i, c) ∈ lootTable → ∀ k, PrimFloat.leb (draws k) c = false) →
  rolled draws n lootTable = [].
Proof.
  revert n. induction lootTable as [|[i c] rest IH]; intros n Hall; [done|].
  cbn [rolled]. rewrite (Hall i c) by (by left).
  apply IH. intros i' c' Hin. apply (Hall i' c'). by right.
Qed.

(** X3. [injectLoot] on a block without inventory changes nothing and draws
    nothing.  On a block whose container holds [inv], it draws once per entry
    of the table and appends, in table order, one stack of size 1 for each
    entry whose draw is at most its chance; dynamic properties, the other
    containers and the random stream are untouched. *)
Theorem X3_injectLoot_effect (lootTable : JsMap float) (block : Block) (w : World) :
  let h := (dim_id (dimension block), location block) in
  injectLoot lootTable block w =
  (tt, match containers w !! h with
       | None => w
       | Some inv =>
           mkWorld (dynamicProperties w)
                   (<[h := (inv ++ rolled (randomDraws w) (randomCursor w) lootTable)%list]>
                      (containers w))
                   (randomDraws w) (randomCursor w + Map_size lootTable)
       end).
Proof. apply injectLoot_run. Qed.

(** X4. With draws in [0, 1), as [Math.random] gives them, and a block that
    has a container, [injectLoot] of a table whose chances are all at least 1
    adds one stack of every item, in table order, and of a table whose chances
    are all negative adds nothing. *)
Theorem X4_injectLoot_certain_and_impossible (lootTable : JsMap float) (block : Block)
    (w : World) (inv : list ItemStack) :
  (∀ k, PrimFloat.leb 0%float (randomDraws w k) = true
        ∧ PrimFloat.ltb (randomDraws w k) 1%float = true) →
  containers w !! (dim_id (dimension block), location block) = Some inv →
  ((∀ i c, (i, c) ∈ lootTable → PrimFloat.leb 1%float c = true) →
     containers (injectLoot lootTable block w).2
       !! (dim_id (dimension block), location block)
     = Some (inv ++ ((fun e => mkItemStack e.1 1) <$> lootTable))%list)
  ∧ ((∀ i c, (i, c) ∈ lootTable → PrimFloat.ltb c 0%float = true) →
     containers (injectLoot lootTable block w).2
       !! (dim_id (dimension block), location block)
     = Some inv).
Proof.
  intros Hd Hinv. rewrite injectLoot_run, Hinv. cbn [snd containers].
  rewrite lookup_insert_eq. split; intros Hc.
  - rewrite rolled_all; [done|]. intros i c Hin k. destruct (Hd k) as [_ Hlt].
    apply (ltb_leb_leb _ 1%float); [done|]. by apply (Hc i c).
  - rewrite rolled_none; [by rewrite app_nil_r|]. intros i c Hin k.
    destruct (Hd k) as [Hle _].
    apply (ltb_leb_not_leb _ 0%float); [|done]. by apply (Hc i c).
Qed.

(** ** Loot resolver: keys and emptiness *)

Lemma accumulate_keys m e :
  (accumulate m e).*1 = if decide (item e ∈ m.*1) then m.*1 else (m.*1 ++ [item e])%list.
Proof. unfold accumulate. apply Map_set_keys. Qed.

Lemma fold_accumulate_keys table m :
  (fold_left accumulate table m).*1 = firsts m.*1 (item <$> table).
Proof.
  unfold firsts. revert m. induction table as [|e table IH]; intros m; [done|].
  rewrite fmap_cons. cbn [fold_left]. by rewrite IH, accumulate_keys.
Qed.

Lemma firsts_nil_inv seen l : firsts seen l = [] → seen = [] ∧ l = [].
Proof.
  unfold firsts. revert seen. induction l as [|x l IH]; intros seen; cbn [fold_left].
  - done.
  - intros H. apply IH in H as [H _].
    destruct (decide (x ∈ seen)) as [Hin|Hnin].
    + subst. by apply elem_of_nil in Hin.
    + by destruct seen.
Qed.

Lemma mergeLootTables_firsts
    (biomeTable structureTable : option (list LootEntry)) (context : Context) :
  let applied :=
    (default [] biomeTable ++ applicable context (default [] structureTable))%list in
  (mergeLootTables biomeTable structureTable context).*1 = firsts [] (item <$> applied)
  ∧ (Map_size (mergeLootTables biomeTable structureTable context) = 0%nat ↔ applied = []).
Proof.
  cbv zeta. rewrite mergeLootTables_fold.
  pose proof (fold_accumulate_keys
    (default [] biomeTable ++ applicable context (default [] structureTable))%list [])
    as Hk.
  split; [exact Hk|]. split.
  - intros H0. unfold Map_size in H0. apply length_zero_iff_nil in H0.
    rewrite H0 in Hk. symmetry in Hk. apply firsts_nil_inv in Hk as [_ Hk].
    by apply fmap_nil_inv in Hk.
  - by intros ->.
Qed.

(** X5. The merged table lists every item once, in the order in which the
    items first appear in the biome table followed by the structure entries
    that are not skipped.  It is empty exactly when the biome table is absent
    or empty and no structure entry applies. *)
Theorem X5_mergeLootTables_keys
    (biomeTable structureTable : option (list LootEntry)) (context : Context) :
  let applied :=
    (default [] biomeTable ++ applicable context (default [] structureTable))%list in
  (mergeLootTables biomeTable structureTable context).*1 = firsts [] (item <$> applied)
  ∧ (Map_size (mergeLootTables biomeTable structureTable context) = 0%nat ↔ applied = []).
Proof. apply mergeLootTables_firsts. Qed.

(** ** Orchestrator: what [resolve] changes *)

Lemma resolve_run (reg : Registry) (block : Block) (w : World) :
  let h := (dim_id (dimension block), location block) in
  let marked :=
    <[regionPropertyKey OPENED_CHESTS_KEY (location block) :=
        {[posKey (location block)]} ∪ chestSet OPENED_CHESTS_KEY (location block) w]>
      (dynamicProperties w) in
  resolve reg block w =
  (tt, if (canInjectChest block w).1 then
         match containers w !! h with
         | None => mkWorld marked (containers w) (randomDraws w) (randomCursor w)
         | Some inv =>
             mkWorld marked
               (<[h := (inv ++ rolled (randomDraws w) (randomCursor w)
                                      (resolvedLoot reg block))%list]> (containers w))
               (randomDraws w)
               (randomCursor w + Map_size (resolvedLoot reg block))
         end
       else w).
Proof.
  cbv zeta. destruct (canInjectChest block w).1 eqn:Hok.
  - rewrite resolve_eligible by done. rewrite injectLoot_run.
    rewrite markChestOpened_run. cbn [snd containers dynamicProperties randomDraws randomCursor].
    by destruct (containers w !! _).
  - by apply resolve_ineligible.
Qed.

(** X6. [resolve] on an ineligible block changes nothing.  On an eligible
    block it adds the position key to the opened set of the block's region
    and, when the block has a container, appends to it the stacks rolled for
    the merged table and advances the random stream by one draw per entry;
    it changes nothing else: no other dynamic property, no other container. *)
Theorem X6_resolve_effect (reg : Registry) (block : Block) (w : World) :
  let h := (dim_id (dimension block), location block) in
  let marked :=
    <[regionPropertyKey OPENED_CHESTS_KEY (location block) :=
        {[posKey (location block)]} ∪ chestSet OPENED_CHESTS_KEY (location block) w]>
      (dynamicProperties w) in
  resolve reg block w =
  (tt, if (canInjectChest block w).1 then
         match containers w !! h with
         | None => mkWorld marked (containers w) (randomDraws w) (randomCursor w)
         | Some inv =>
             mkWorld marked
               (<[h := (inv ++ rolled (randomDraws w) (randomCursor w)
                                      (resolvedLoot reg block))%list]> (containers w))
               (randomDraws w)
               (randomCursor w + Map_size (resolvedLoot reg block))
         end
       else w).
Proof. apply resolve_run. Qed.

(** X7. When the biome of an eligible block has no loot entry and no entry
    of the detected structure applies (nothing registered, an empty table, or
    every entry skipped), [resolve] is [markChestOpened]: the chest is marked
    opened, nothing is drawn and no inventory is touched. *)
Theorem X7_resolve_without_loot (reg : Registry) (block : Block) (w : World) :
  (canInjectChest block w).1 = true →
  default [] (biomeLoot reg !! getBiome (dimension block) (location block)) = [] →
  applicable (mkContext (getBiome (dimension block) (location block))
                        (dim_id (dimension block)))
             (default [] (structureLoot reg !! detectNearbyStructure reg block 6)) = [] →
  resolve reg block w = markChestOpened block w.
Proof.
  intros Hok Hb Hs. rewrite resolve_eligible by done.
  rewrite injectLoot_empty; [by rewrite markChestOpened_run|].
  unfold resolvedLoot.
  apply (proj2 (mergeLootTables_firsts _ _ _)). by rewrite Hb, Hs.
Qed.

(** ** Event streams: tracking is permanent, loot comes at most once *)

Lemma tracked_iff b w : tracked (location b) w ↔ (canInjectChest b w).1 = false.
Proof. unfold tracked. by rewrite canInjectChest_false. Qed.

Lemma tracked_markChestOpened b pos w :
  tracked pos w → tracked pos (markChestOpened b w).2.
Proof.
  unfold tracked. rewrite placed_after_markChestOpened, opened_after_markChestOpened.
  intros [H|H]; [by left|right].
  destruct (decide _); [apply elem_of_union; by right|done].
Qed.

Lemma tracked_markChestPlaced b pos w :
  tracked pos w → tracked pos (markChestPlaced b w).2.
Proof.
  unfold tracked. rewrite opened_after_markChestPlaced, placed_after_markChestPlaced.
  intros [H|H]; [left|by right].
  destruct (decide _); [apply elem_of_union; by right|done].
Qed.

Lemma tracked_dynamicProperties pos w w' :
  dynamicProperties w = dynamicProperties w' → tracked pos w → tracked pos w'.
Proof.
  intros H. unfold tracked.
  by rewrite !(chestSet_dynamicProperties _ _ _ _ H).
Qed.

Lemma resolve_tracked reg b pos d w :
  tracked pos w →
  tracked pos (resolve reg b w).2
  ∧ containers (resolve reg b w).2 !! (d, pos) = containers w !! (d, pos).
Proof.
  intros Ht. destruct (canInjectChest b w).1 eqn:Hok.
  - assert (location b ≠ pos) as Hne.
    { intros <-. apply tracked_iff in Ht. congruence. }
    split.
    + apply (tracked_dynamicProperties pos (markChestOpened b w).2).
      * rewrite resolve_eligible by done. by rewrite injectLoot_dynamicProperties.
      * by apply tracked_markChestOpened.
    + rewrite resolve_run, Hok. cbn [snd].
      destruct (containers w !! (dim_id (dimension b), location b)); cbn [containers]; [|done].
      rewrite lookup_insert_ne; [done|]. intros [= _ ?]. done.
  - by rewrite resolve_ineligible.
Qed.

Lemma subscriber_tracked reg e pos d w :
  tracked pos w →
  tracked pos (subscriber reg e w).2
  ∧ containers (subscriber reg e w).2 !! (d, pos) = containers w !! (d, pos).
Proof.
  intros Ht. destruct e as [b|b]; cbn [subscriber].
  - unfold onPlayerInteractWithBlock. destruct (decide _); [|done].
    by apply resolve_tracked.
  - unfold onPlayerPlaceBlock. destruct (decide _); [|done].
    split; [by apply tracked_markChestPlaced|done].
Qed.

(** X8. Once a position is in the placed or the opened set, it stays there
    through every sequence of interaction and placement events, and no event
    changes a container at that position, in any dimension: a chest is looted
    at most once and a player-placed chest never. *)
Theorem X8_tracked_forever (reg : Registry) (events : list WorldEvent)
    (pos : Vector3) (d : string) (w : World) :
  tracked pos w →
  tracked pos (for_of events (subscriber reg) w).2
  ∧ containers (for_of events (subscriber reg) w).2 !! (d, pos) = containers w !! (d, pos).
Proof.
  revert w. induction events as [|e events IH]; intros w Ht; [done|].
  cbn [for_of]. unfold bind.
  destruct (subscriber_tracked reg e pos d w Ht) as [Ht' Hc].
  destruct (IH _ Ht') as [Ht'' Hc']. split; [done|]. by rewrite Hc'.
Qed.

Lemma X8_witness :
  tracked (location sample_chest) placed_world
  ∧ containers (for_of [PlayerInteractWithBlock sample_chest;
                        PlayerInteractWithBlock other_chest]
                       (subscriber sample_registry) placed_world).2
    !! ("minecraft:overworld", location sample_chest)
    = containers placed_world !! ("minecraft:overworld", location sample_chest).
Proof.
  assert (tracked (location sample_chest) placed_world) as H.
  { left. apply (bool_decide_unpack _). vm_compute. exact I. }
  split; [exact H|].
  exact (proj2 (X8_tracked_forever sample_registry
                  [PlayerInteractWithBlock sample_chest;
                   PlayerInteractWithBlock other_chest]
                  (location sample_chest) "minecraft:overworld" placed_world H)).
Defined.

(** X9. The first interaction with an eligible chest block marks it: after
    the subscriber handled it, the position is tracked, whatever loot was
    registered.  Placing a chest block tracks its position too; events on
    blocks of another type change nothing. *)
Theorem X9_subscriber_tracks (reg : Registry) (block : Block) (w : World) :
  (block_typeId block = "minecraft:chest" →
     tracked (location block) (subscriber reg (PlayerInteractWithBlock block) w).2
     ∧ tracked (location block) (subscriber reg (PlayerPlaceBlock block) w).2)
  ∧ (block_typeId block ≠ "minecraft:chest" →
     subscriber reg (PlayerInteractWithBlock block) w = (tt, w)
     ∧ subscriber reg (PlayerPlaceBlock block) w = (tt, w)).
Proof.
  split; intros Hty; cbn [subscriber];
    unfold onPlayerInteractWithBlock, onPlayerPlaceBlock.
  - rewrite !decide_True by done. split.
    + destruct (canInjectChest block w).1 eqn:Hok.
      * right. rewrite resolve_eligible by done.
        rewrite (chestSet_dynamicProperties _ _ _ (markChestOpened block w).2)
          by apply injectLoot_dynamicProperties.
        apply elem_opened_after_markChestOpened. by left.
      * rewrite resolve_ineligible by done. by apply tracked_iff.
    + left. apply elem_placed_after_markChestPlaced. by left.
  - by rewrite !decide_False by done.
Qed.

(** ** Structure classifier: range, stability, locality, volume *)

Lemma find_elem {A} (f : A → bool) (l : list A) x : List.find f l = Some x → x ∈ l.
Proof. intros H. apply find_some in H as [H _]. by apply list_elem_of_In. Qed.

Lemma find_app_Some {A} (f : A → bool) (l l' : list A) x :
  List.find f l = Some x → List.find f (l ++ l')%list = Some x.
Proof.
  induction l as [|a l IH]; [done|]. cbn [List.find app].
  destruct (f a); [done|apply IH].
Qed.

(** X10. The answer of [detectNearbyStructure] is ["chest_cluster"],
    ["default"] or the id of a registered structure. *)
Theorem X10_detect_range (reg : Registry) (block : Block) (radius : Z) :
  detectNearbyStructure reg block radius = "chest_cluster"
  ∨ detectNearbyStructure reg block radius = "default"
  ∨ detectNearbyStructure reg block radius ∈ (structures reg).*1.
Proof.
  rewrite detectNearbyStructure_classify. unfold classify.
  destruct (6 <=? _)%Z; [by left|]. right.
  destruct (List.find _ _) as [[sid req]|] eqn:Hf; [right|by left].
  apply find_elem in Hf. apply (proj1 (elem_of_Object_entries _ _)) in Hf.
  apply list_elem_of_fmap. by exists (sid, req).
Qed.

Lemma classify_app count table table' :
  classify count table ≠ "default" →
  classify count (table ++ table')%list = classify count table.
Proof.
  unfold classify. destruct (6 <=? _)%Z; [done|].
  destruct (List.find _ table) as [[sid req]|] eqn:Hf; [|done].
  intros _. by rewrite (find_app_Some _ _ _ _ Hf).
Qed.

(** X11. Registering a further structure under an id that is not an array
    index does not change a classification that some structure or the chest
    cluster already decides: where [detectNearbyStructure] answered something
    other than ["default"], it answers the same after the [registerStructure]
    call. *)
Theorem X11_registration_keeps_matches (reg : Registry) (id : string)
    (definition : Requirement) (block : Block) (radius : Z) :
  array_index id = None →
  detectNearbyStructure reg block radius ≠ "default" →
  detectNearbyStructure (registerStructure id definition reg) block radius
  = detectNearbyStructure reg block radius.
Proof.
  rewrite !detectNearbyStructure_classify. intros Hid Hne.
  unfold registerStructure. destruct (structures_get id (structures reg)); [done|].
  destruct (inherited id); [done|].
  cbn [structures]. rewrite Object_entries_snoc by done. by apply classify_app.
Qed.

Lemma X11_witness :
  array_index "stronghold" = None
  ∧ detectNearbyStructure initial_registry sample_chest 6 ≠ "default"
  ∧ detectNearbyStructure
      (registerStructure "stronghold" (Threshold []) initial_registry) sample_chest 6
    = detectNearbyStructure initial_registry sample_chest 6.
Proof.
  assert (detectNearbyStructure initial_registry sample_chest 6 ≠ "default") as H.
  { vm_compute. discriminate. }
  split; [reflexivity|]. split; [exact H|].
  exact (X11_registration_keeps_matches initial_registry "stronghold" (Threshold [])
           sample_chest 6 eq_refl H).
Defined.

Lemma omap_ext_in {A B} (f g : A → option B) (l : list A) :
  (∀ x, x ∈ l → f x = g x) → omap f l = omap g l.
Proof.
  induction l as [|a l IH]; intros H; [done|]. cbn [omap list_omap].
  rewrite (H a) by (by left). rewrite IH; [done|]. intros x Hx. apply H. by right.
Qed.

(** X12. The classification depends on the blocks within the radius only:
    two dimensions whose blocks agree on every cell of the cube around the
    position give the same answer. *)
Theorem X12_detect_local (reg : Registry) (b1 b2 : Block) (radius : Z) :
  location b1 = location b2 →
  (∀ dx dy dz,
     - radius <= dx <= radius → - radius <= dy <= radius → - radius <= dz <= radius →
     getBlock (dimension b1)
       (mkPos (pos_x (location b1) + dx) (pos_y (location b1) + dy) (pos_z (location b1) + dz))
     = getBlock (dimension b2)
       (mkPos (pos_x (location b1) + dx) (pos_y (location b1) + dy) (pos_z (location b1) + dz))) →
  detectNearbyStructure reg b1 radius = detectNearbyStructure reg b2 radius.
Proof.
  intros Hloc Hagree. rewrite !detectNearbyStructure_classify.
  assert (scanned (dimension b1) (location b1) radius
          = scanned (dimension b2) (location b2) radius) as ->; [|done].
  unfold scanned. rewrite <-Hloc. apply omap_ext_in.
  intros [[dx dy] dz] Hin. apply elem_of_cube in Hin as (Hx & Hy & Hz).
  unfold blockAt. cbn [fst snd]. by apply Hagree.
Qed.

Lemma X12_witness :
  location sample_chest = location far_chest
  ∧ detectNearbyStructure initial_registry sample_chest 6
    = detectNearbyStructure initial_registry far_chest 6.
Proof.
  split; [reflexivity|].
  apply (X12_detect_local initial_registry sample_chest far_chest 6 eq_refl).
  intros dx dy dz Hx Hy Hz. cbn [dimension far_chest far_dimension getBlock pos_x location
                                  sample_chest].
  rewrite decide_False by lia. reflexivity.
Defined.

Lemma length_bind_const {A B} (f : A → list B) (l : list A) n :
  (∀ x, length (f x) = n) → length (l ≫= f) = (length l * n)%nat.
Proof.
  intros Hf. induction l as [|a l IH]; [done|].
  rewrite bind_cons, length_app, IH, Hf. cbn [length]. lia.
Qed.

Lemma length_cube radius :
  length (cube radius) = (Z.to_nat (2 * radius + 1) ^ 3)%nat.
Proof.
  unfold cube.
  rewrite (length_bind_const _ _ (Z.to_nat (2 * radius + 1) * Z.to_nat (2 * radius + 1))).
  - unfold offsets. rewrite length_seqZ. cbn [Nat.pow]. lia.
  - intros dx. rewrite (length_bind_const _ _ (Z.to_nat (2 * radius + 1))).
    + unfold offsets. by rewrite length_seqZ.
    + intros dy. rewrite (length_bind_const _ _ 1%nat); [|done].
      unfold offsets. rewrite length_seqZ. lia.
Qed.

Lemma length_omap_le {A B} (f : A → option B) (l : list A) :
  (length (omap f l) <= length l)%nat.
Proof.
  induction l as [|a l IH]; [done|]. cbn [omap list_omap length].
  destruct (f a); cbn [length]; lia.
Qed.

(** X13. The counters of the scan are bounded by its volume: after the three
    loops the chest counter lies between 0 and (2 * radius + 1)^3, the number
    of cells visited (none for a negative radius), and a block type that has a
    count has one between 1 and that number. *)
Theorem X13_scan_volume (dim : Dimension) (origin : Vector3) (radius : Z) (id : string) :
  let volume := Z.of_nat (Z.to_nat (2 * radius + 1) ^ 3) in
  0 <= (scanArea dim origin radius).2 <= volume
  ∧ match (scanArea dim origin radius).1 !! id with
    | Some n => 1 <= n <= volume
    | None => True
    end.
Proof.
  cbv zeta. destruct (scanArea_counts dim origin radius) as [Hbc Hcc].
  assert (∀ b, 0 <= countOf b (scanned dim origin radius)
               <= Z.of_nat (Z.to_nat (2 * radius + 1) ^ 3)) as Hb.
  { intros b. split; [apply countOf_nonneg|]. rewrite <-length_cube.
    unfold countOf, scanned. apply inj_le.
    etrans; [apply length_filter|apply length_omap_le]. }
  split; [rewrite Hcc; apply Hb|].
  rewrite Hbc. destruct (decide _) as [H0|H0]; [done|].
  specialize (Hb id). lia.
Qed.

(** ** Loot registration: entries that beat nothing, and trinkets *)

Lemma Map_set_fresh {V} (k : string) (v : V) (m : JsMap V) :
  k ∉ m.*1 → Map_set k v m = (m ++ [(k, v)])%list.
Proof.
  induction m as [|[k0 v0] m IH]; intros Hk; [done|].
  rewrite fmap_cons, not_elem_of_cons in Hk. destruct Hk as [Hne Hk].
  cbn [Map_set fst] in *. rewrite decide_False by done.
  by rewrite IH.
Qed.

(** The first loop of the merge on a table that names no item twice. *)
Lemma fold_set_NoDup existing (m : JsMap LootEntry) :
  NoDup (m.*1 ++ (item <$> existing))%list →
  fold_left (fun map entry => Map_set (item entry) entry map) existing m
  = (m ++ ((fun e => (item e, e)) <$> existing))%list.
Proof.
  revert m. induction existing as [|e existing IH]; intros m Hnd.
  - by rewrite app_nil_r.
  - cbn [fold_left]. rewrite fmap_cons in Hnd.
    assert (item e ∉ m.*1) as Hfresh.
    { apply NoDup_app in Hnd as (_ & Hdisj & _). intros Hin.
      apply (Hdisj _ Hin). by left. }
    rewrite (Map_set_fresh _ _ _ Hfresh), IH.
    + rewrite fmap_cons, <-app_assoc. done.
    + rewrite fmap_app, <-app_assoc. done.
Qed.

Lemma fold_incoming_unbeaten loot (m : JsMap LootEntry) :
  keyed m → NoDup m.*1 →
  (∀ e, e ∈ loot → ∃ p, (item e, p) ∈ m ∧ PrimFloat.ltb (chance p) (chance e) = false) →
  fold_left incoming loot m = m.
Proof.
  intros Hk Hnd. induction loot as [|e loot IH]; intros Hall; [done|].
  cbn [fold_left].
  assert (incoming m e = m) as ->.
  { destruct (Hall e) as (p & Hin & Hle); [by left|].
    unfold incoming. rewrite (Map_get_elem _ _ _ Hnd Hin).
    by rewrite Hle. }
  apply IH. intros e' He'. apply Hall. by right.
Qed.

Lemma mergeRegistered_unbeaten stored loot :
  NoDup (item <$> stored) →
  (∀ e, e ∈ loot →
     ∃ p, p ∈ stored ∧ item p = item e ∧ PrimFloat.ltb (chance p) (chance e) = false) →
  mergeRegistered stored loot = stored.
Proof.
  intros Hnd Hall. rewrite mergeRegistered_folds.
  rewrite (fold_set_NoDup stored []) by done. rewrite app_nil_l.
  rewrite fold_incoming_unbeaten.
  - unfold Map_values. rewrite <-list_fmap_compose. apply list_fmap_id.
  - unfold keyed. apply Forall_fmap. by apply Forall_forall.
  - rewrite <-list_fmap_compose. done.
  - intros e He. destruct (Hall e He) as (p & Hp & Hi & Hle).
    exists p. split; [|done]. rewrite <-Hi. apply list_elem_of_fmap. by exists p.
Qed.

(** X14. Registering entries that beat nothing changes nothing: when the
    stored table of an id names no item twice and every incoming entry finds
    a stored entry for its item that it does not beat (its chance is not
    greater), the call completes and the registry table is unchanged.  In
    particular registering the stored list a second time is a no-op. *)
Theorem X14_registration_unbeaten (id : string) (stored loot : list LootEntry)
    (table : gmap string (list LootEntry)) :
  table !! id = Some stored →
  NoDup (item <$> stored) →
  (∀ e, e ∈ loot →
     ∃ p, p ∈ stored ∧ item p = item e ∧ PrimFloat.ltb (chance p) (chance e) = false) →
  registerLoot id loot table = Normal table
  ∧ registerLoot id stored table = Normal table.
Proof.
  intros Ht Hnd Hall. rewrite !(registerLoot_Some _ _ _ _ Ht). split.
  - rewrite mergeRegistered_unbeaten by done. by rewrite insert_id.
  - rewrite mergeRegistered_unbeaten; [by rewrite insert_id|done|].
    intros e He. exists e. repeat split; [done|apply ltb_irrefl].
Qed.

Lemma X14_witness :
  sample_table !! "minecraft:plains" = Some [mkLootEntry "x" 0.5%float None]
  ∧ registerLoot "minecraft:plains" [mkLootEntry "x" 0.2%float None] sample_table
    = Normal sample_table.
Proof.
  assert (sample_table !! "minecraft:plains" = Some [mkLootEntry "x" 0.5%float None]) as H.
  { apply lookup_singleton_eq. }
  split; [exact H|].
  refine (proj1 (X14_registration_unbeaten "minecraft:plains"
                   [mkLootEntry "x" 0.5%float None] [mkLootEntry "x" 0.2%float None]
                   sample_table H _ _)).
  - apply NoDup_singleton.
  - intros e He. apply list_elem_of_singleton in He. subst e.
    exists (mkLootEntry "x" 0.5%float None). split; [by left|]. split; reflexivity.
Defined.

(** ** Registrations as steps on one loot registry *)

Lemma registerLoot_state id loot table :
  state_of (registerLoot id loot table) =
  match table !! id with
  | Some existing => <[id := mergeRegistered existing loot]> table
  | None => if inherited id then table else <[id := loot]> table
  end.
Proof.
  unfold registerLoot. destruct (table !! id); [done|]. by destruct (inherited id).
Qed.

Lemma registerLoot_other id id' loot table :
  id' ≠ id → state_of (registerLoot id loot table) !! id' = table !! id'.
Proof.
  intros Hne. rewrite registerLoot_state.
  destruct (table !! id); [by rewrite lookup_insert_ne|].
  destruct (inherited id); [done|by rewrite lookup_insert_ne].
Qed.

Lemma registerLoot_unique id loot table :
  NoDup (item <$> loot) → unique_tables table →
  unique_tables (state_of (registerLoot id loot table)).
Proof.
  intros Hl Hu id' stored. destruct (decide (id' = id)) as [->|Hne].
  - rewrite registerLoot_state. destruct (table !! id) as [existing|] eqn:Ht.
    + rewrite lookup_insert_eq. intros [= <-]. apply mergeRegistered_NoDup.
    + destruct (inherited id); [by rewrite Ht|].
      rewrite lookup_insert_eq. by intros [= <-].
  - rewrite registerLoot_other by done. apply Hu.
Qed.

(** After a merge the entry kept for the item of a stored entry is beaten by
    nothing that did not beat the stored one. *)
Lemma mergeRegistered_kept stored loot p :
  NoDup (item <$> stored) → p ∈ stored →
  ∃ k, k ∈ mergeRegistered stored loot ∧ item k = item p
       ∧ (∀ x, PrimFloat.ltb (chance p) x = false → PrimFloat.ltb (chance k) x = false).
Proof.
  intros Hnd Hp. pose proof (entryFor_merge (item p) stored loot Hnd) as Hm.
  rewrite (entryFor_elem _ _ Hnd Hp) in Hm.
  destruct (challenge_fold_kept (item p) loot p) as (k & Hk & Hmono & _ & _).
  rewrite Hk in Hm. apply entryFor_Some in Hm as [Hin Hi]. by exists k.
Qed.

Lemma offers_registerLoot_kept id loot table b i c :
  unique_tables table →
  offers (table !! b) i c → offers (state_of (registerLoot id loot table) !! b) i c.
Proof.
  intros Hu (stored & k & Hs & Hk & Hi & Hle).
  destruct (decide (b = id)) as [->|Hne].
  - rewrite registerLoot_state, Hs, lookup_insert_eq.
    destruct (mergeRegistered_kept stored loot k) as (k' & Hk' & Hi' & Hmono);
      [by apply (Hu id)|done|].
    exists (mergeRegistered stored loot), k'. repeat split; [done|congruence|by apply Hmono].
  - rewrite registerLoot_other by done. by exists stored, k.
Qed.

Lemma offers_registerLoot_new id e table table' :
  unique_tables table → registerLoot id [e] table = Normal table' →
  offers (table' !! id) (item e) (chance e).
Proof.
  intros Hu. unfold registerLoot. destruct (table !! id) as [stored|] eqn:Hs.
  - intros [= <-]. rewrite lookup_insert_eq.
    destruct (best_of_merge stored stored [e]) as (_ & _ & Hmax).
    { apply best_of_first. by apply (Hu id). }
    destruct (Hmax e) as (k' & Hk' & Hi' & Hle'); [apply elem_of_app; right; by left|].
    by exists (mergeRegistered stored [e]), k'.
  - destruct (inherited id); [done|]. intros [= <-]. rewrite lookup_insert_eq.
    exists [e], e. repeat split; [by left|apply ltb_irrefl].
Qed.

Lemma state_of_andThen_Normal {S} (c : Completion S) (rest : S → Completion S) s :
  c = Normal s → andThen c rest = rest s.
Proof. by intros ->. Qed.

Lemma forEach_invariant {S A} (P : S → Prop) (l : list A) (body : S → A → Completion S) s :
  P s → (∀ s a, a ∈ l → P s → P (state_of (body s a))) →
  P (state_of (forEach l body s)).
Proof.
  revert s. induction l as [|a l IH]; intros s Hs Hbody; [done|].
  rewrite forEach_cons. pose proof (Hbody s a (list_elem_of_here _ _) Hs) as Hs'.
  destruct (body s a) as [s'|e s']; cbn [andThen state_of] in *; [|done].
  apply IH; [done|]. intros s0 a0 Ha0. apply Hbody. by right.
Qed.

Lemma forEach_Normal_cons {S A} (a : A) (l : list A) (body : S → A → Completion S) s s' :
  forEach (a :: l) body s = Normal s' →
  ∃ s1, body s a = Normal s1 ∧ forEach l body s1 = Normal s'.
Proof.
  rewrite forEach_cons. destruct (body s a) as [s1|e s1]; cbn [andThen]; [|done].
  intros H. by exists s1.
Qed.

Lemma registerEach_unique regs table :
  unique_tables table → unique_tables (state_of (registerEach regs table)).
Proof.
  intros Hu. unfold registerEach. apply (forEach_invariant unique_tables); [done|].
  intros t r _ Ht. apply registerLoot_unique; [apply NoDup_singleton|done].
Qed.

Lemma registerEach_other regs table b :
  b ∉ regs.*1 → state_of (registerEach regs table) !! b = table !! b.
Proof.
  intros Hb. unfold registerEach.
  apply (forEach_invariant (fun t => t !! b = table !! b)); [done|].
  intros t r Hr Ht. rewrite registerLoot_other; [done|].
  intros ->. apply Hb. apply list_elem_of_fmap. by exists r.
Qed.

Lemma registerEach_kept regs table b i c :
  unique_tables table → offers (table !! b) i c →
  offers (state_of (registerEach regs table) !! b) i c.
Proof.
  intros Hu Ho. unfold registerEach.
  apply (forEach_invariant (fun t => unique_tables t ∧ offers (t !! b) i c)); [done|].
  intros t r _ [Ht Hot]. split.
  - apply registerLoot_unique; [apply NoDup_singleton|done].
  - by apply offers_registerLoot_kept.
Qed.

Lemma registerEach_new regs table table' b e :
  unique_tables table → registerEach regs table = Normal table' → (b, e) ∈ regs →
  offers (table' !! b) (item e) (chance e).
Proof.
  unfold registerEach. revert table.
  induction regs as [|[b' e'] regs IH]; intros table Hu Hn Hin.
  - by apply elem_of_nil in Hin.
  - apply forEach_Normal_cons in Hn as (t1 & H1 & Hn). cbn [fst snd] in H1.
    assert (unique_tables t1) as Hu1.
    { change t1 with (state_of (Normal t1)). rewrite <-H1.
      apply registerLoot_unique; [apply NoDup_singleton|done]. }
    apply elem_of_cons in Hin as [[= -> ->]|Hin]; [|by apply (IH t1)].
    change table' with (state_of (Normal table')). rewrite <-Hn.
    apply (registerEach_kept regs); [done|]. by apply (offers_registerLoot_new _ _ table).
Qed.

(** ** Trinket loot *)

Lemma registerBiomeDrop_target trinketId reg entry :
  registerBiomeDrop trinketId reg entry =
  match biomeTarget entry with
  | Some (biome, chance) => registerBiomeLoot biome [mkLootEntry trinketId chance None] reg
  | None => Normal reg
  end.
Proof.
  unfold registerBiomeDrop, biomeTarget.
  destruct (drop_biome entry) as [b|], (drop_chance entry) as [c|]; try done.
  by destruct (truthy (Some b)).
Qed.

Lemma registerStructureDrop_target trinketId reg entry :
  registerStructureDrop trinketId reg entry =
  match structureTarget entry with
  | Some (structure, chance) =>
      registerStructureLoot structure
        [mkLootEntry trinketId chance (drop_conditions entry)] reg
  | None => Normal reg
  end.
Proof.
  unfold registerStructureDrop, structureTarget.
  destruct (drop_structure entry) as [s|], (sdrop_chance entry) as [c|]; try done.
  by destruct (truthy (Some s)).
Qed.

Lemma registerLoot_Abrupt id loot table e t :
  registerLoot id loot table = Abrupt e t → t = table.
Proof.
  unfold registerLoot. destruct (table !! id); [done|].
  destruct (inherited id); [|done]. intros H. congruence.
Qed.

Lemma Registry_eta reg :
  mkRegistry (structures reg) (structureLoot reg) (biomeLoot reg) = reg.
Proof. by destruct reg. Qed.

(** The loop over [loot.biomes] as registrations on the biome registry. *)
Lemma fold_registerBiomeDrop trinketId entries reg :
  forEach entries (registerBiomeDrop trinketId) reg =
  match registerEach (biomeRegistrations trinketId entries) (biomeLoot reg) with
  | Normal t => Normal (mkRegistry (structures reg) (structureLoot reg) t)
  | Abrupt e t => Abrupt e (mkRegistry (structures reg) (structureLoot reg) t)
  end.
Proof.
  unfold registerEach, biomeRegistrations. revert reg.
  induction entries as [|entry entries IH]; intros reg.
  - cbn. by rewrite Registry_eta.
  - rewrite forEach_cons, registerBiomeDrop_target. cbn [omap list_omap].
    destruct (biomeTarget entry) as [[b c]|]; cbn [fmap option_fmap option_map];
      [|cbn [andThen]; apply IH].
    rewrite forEach_cons. cbn [fst snd]. unfold registerBiomeLoot.
    destruct (registerLoot b _ (biomeLoot reg)) as [t|e t] eqn:Hr; cbn [andThen].
    + by rewrite IH.
    + apply registerLoot_Abrupt in Hr as ->. by rewrite Registry_eta.
Qed.

Lemma fold_registerStructureDrop trinketId entries reg :
  forEach entries (registerStructureDrop trinketId) reg =
  match registerEach (structureRegistrations trinketId entries) (structureLoot reg) with
  | Normal t => Normal (mkRegistry (structures reg) t (biomeLoot reg))
  | Abrupt e t => Abrupt e (mkRegistry (structures reg) t (biomeLoot reg))
  end.
Proof.
  unfold registerEach, structureRegistrations. revert reg.
  induction entries as [|entry entries IH]; intros reg.
  - cbn. by rewrite Registry_eta.
  - rewrite forEach_cons, registerStructureDrop_target. cbn [omap list_omap].
    destruct (structureTarget entry) as [[b c]|]; cbn [fmap option_fmap option_map];
      [|cbn [andThen]; apply IH].
    rewrite forEach_cons. cbn [fst snd]. unfold registerStructureLoot.
    destruct (registerLoot b _ (structureLoot reg)) as [t|e t] eqn:Hr; cbn [andThen].
    + by rewrite IH.
    + apply registerLoot_Abrupt in Hr as ->. by rewrite Registry_eta.
Qed.

(** The two stages of [registerTrinketLoot] on the two loot registries. *)
Lemma registerTrinketLoot_stages trinketId trinket reg loot :
  trinket_loot trinket = Some loot →
  registerTrinketLoot trinketId trinket reg =
  match registerEach (biomeRegistrations trinketId (default [] (loot_biomes loot)))
                     (biomeLoot reg) with
  | Normal t1 =>
      match registerEach
              (structureRegistrations trinketId (default [] (loot_structures loot)))
              (structureLoot reg) with
      | Normal t2 => Normal (mkRegistry (structures reg) t2 t1)
      | Abrupt e t2 => Abrupt e (mkRegistry (structures reg) t2 t1)
      end
  | Abrupt e t1 => Abrupt e (mkRegistry (structures reg) (structureLoot reg) t1)
  end.
Proof.
  intros Hl. unfold registerTrinketLoot. rewrite Hl.
  assert (match loot_biomes loot with
          | Some entries => forEach entries (registerBiomeDrop trinketId) reg
          | None => Normal reg
          end = forEach (default [] (loot_biomes loot)) (registerBiomeDrop trinketId) reg)
    as -> by (by destruct (loot_biomes loot)).
  rewrite fold_registerBiomeDrop.
  destruct (registerEach (biomeRegistrations _ _) _) as [t1|e t1]; cbn [andThen]; [|done].
  assert (∀ r, match loot_structures loot with
               | Some entries => forEach entries (registerStructureDrop trinketId) r
               | None => Normal r
               end = forEach (default [] (loot_structures loot))
                             (registerStructureDrop trinketId) r)
    as -> by (intros r; by destruct (loot_structures loot)).
  by rewrite fold_registerStructureDrop.
Qed.

Lemma biomeRegistrations_targets trinketId entries :
  (biomeRegistrations trinketId entries).*1 = (omap biomeTarget entries).*1.
Proof.
  unfold biomeRegistrations. induction entries as [|entry entries IH]; [done|].
  cbn [omap list_omap]. destruct (biomeTarget entry) as [[b c]|]; cbn [fmap option_fmap option_map];
    [|done]. rewrite !fmap_cons. by rewrite IH.
Qed.

Lemma structureRegistrations_targets trinketId entries :
  (structureRegistrations trinketId entries).*1 = (omap structureTarget entries).*1.
Proof.
  unfold structureRegistrations. induction entries as [|entry entries IH]; [done|].
  cbn [omap list_omap]. destruct (structureTarget entry) as [[b c]|]; cbn [fmap option_fmap option_map];
    [|done]. rewrite !fmap_cons. by rewrite IH.
Qed.

Lemma biomeRegistrations_elem trinketId entries b c :
  (b, c) ∈ omap biomeTarget entries →
  ∃ e, (b, e) ∈ biomeRegistrations trinketId entries ∧ item e = trinketId ∧ chance e = c.
Proof.
  unfold biomeRegistrations. induction entries as [|entry entries IH]; intros Hin.
  - by apply elem_of_nil in Hin.
  - cbn [omap list_omap] in *.
    destruct (biomeTarget entry) as [[b' c']|]; cbn [fmap option_fmap option_map] in *.
    + apply elem_of_cons in Hin as [[= -> ->]|Hin].
      * exists (mkLootEntry trinketId c' None). split; [by left|done].
      * destruct (IH Hin) as (e & He & Hi & Hc). exists e. split; [by right|done].
    + by apply IH.
Qed.

Lemma structureRegistrations_elem trinketId entries s c :
  (s, c) ∈ omap structureTarget entries →
  ∃ e, (s, e) ∈ structureRegistrations trinketId entries
       ∧ item e = trinketId ∧ chance e = c.
Proof.
  unfold structureRegistrations. induction entries as [|entry entries IH]; intros Hin.
  - by apply elem_of_nil in Hin.
  - cbn [omap list_omap] in *.
    destruct (structureTarget entry) as [[b' c']|]; cbn [fmap option_fmap option_map] in *.
    + apply elem_of_cons in Hin as [[= -> ->]|Hin].
      * exists (mkLootEntry trinketId c' (drop_conditions entry)). split; [by left|done].
      * destruct (IH Hin) as (e & He & Hi & Hc). exists e. split; [by right|done].
    + by apply IH.
Qed.

(** X15. [registerTrinketLoot] keeps the loot registries duplicate-free: if
    every stored table names each item at most once before, so it does in the
    state the call leaves, whether it returns or throws.  The structure
    definitions are not touched, and the table of a biome or structure that no
    well-formed entry names (truthy target, numeric chance) is left as it was;
    malformed entries are skipped. *)
Theorem X15_registerTrinketLoot_invariant (trinketId : string) (trinket : Trinket)
    (reg : Registry) :
  tables_unique reg →
  let reg' := state_of (registerTrinketLoot trinketId trinket reg) in
  tables_unique reg'
  ∧ structures reg' = structures reg
  ∧ (∀ b, b ∉ (biomeTargets trinket).*1 → biomeLoot reg' !! b = biomeLoot reg !! b)
  ∧ (∀ s, s ∉ (structureTargets trinket).*1 →
          structureLoot reg' !! s = structureLoot reg !! s).
Proof.
  intros [Hs Hb] reg'. unfold reg', biomeTargets, structureTargets.
  destruct (trinket_loot trinket) as [loot|] eqn:Hl.
  2:{ unfold registerTrinketLoot. rewrite Hl. by repeat split. }
  rewrite (registerTrinketLoot_stages _ _ _ _ Hl).
  pose proof (registerEach_unique
    (biomeRegistrations trinketId (default [] (loot_biomes loot))) _ Hb) as Hb1.
  pose proof (registerEach_unique
    (structureRegistrations trinketId (default [] (loot_structures loot))) _ Hs) as Hs1.
  pose proof (registerEach_other
    (biomeRegistrations trinketId (default [] (loot_biomes loot))) (biomeLoot reg)) as Hb2.
  pose proof (registerEach_other
    (structureRegistrations trinketId (default [] (loot_structures loot)))
    (structureLoot reg)) as Hs2.
  rewrite biomeRegistrations_targets in Hb2. rewrite structureRegistrations_targets in Hs2.
  destruct (registerEach (biomeRegistrations _ _) _) as [t1|e1 t1];
    [destruct (registerEach (structureRegistrations _ _) _) as [t2|e2 t2]|];
    cbn [state_of structures structureLoot biomeLoot] in *;
    repeat split; auto.
Qed.

Lemma initial_registry_unique : tables_unique initial_registry.
Proof. split; intros id table H; cbn in H; by rewrite lookup_empty in H. Qed.

Lemma X15_witness :
  tables_unique initial_registry
  ∧ tables_unique (state_of (registerTrinketLoot "dorios:ring" sample_trinket
                               initial_registry)).
Proof.
  split; [exact initial_registry_unique|].
  exact (proj1 (X15_registerTrinketLoot_invariant "dorios:ring" sample_trinket
                  initial_registry initial_registry_unique)).
Defined.

(** X16. When [registerTrinketLoot] returns, on registries that name no item
    twice per table, every well-formed entry is honoured: the table of its
    biome (or structure) holds an entry for the trinket that the entry's
    chance does not beat. *)
Theorem X16_registerTrinketLoot_offers (trinketId : string) (trinket : Trinket)
    (reg reg' : Registry) (target : string) (c : float) :
  tables_unique reg →
  registerTrinketLoot trinketId trinket reg = Normal reg' →
  ((target, c) ∈ biomeTargets trinket → offers (biomeLoot reg' !! target) trinketId c)
  ∧ ((target, c) ∈ structureTargets trinket →
     offers (structureLoot reg' !! target) trinketId c).
Proof.
  intros [Hs Hb]. unfold biomeTargets, structureTargets.
  destruct (trinket_loot trinket) as [loot|] eqn:Hl.
  2:{ intros _. split; intros Hin; by apply elem_of_nil in Hin. }
  rewrite (registerTrinketLoot_stages _ _ _ _ Hl).
  destruct (registerEach (biomeRegistrations _ _) _) as [t1|e1 t1] eqn:H1; [|done].
  destruct (registerEach (structureRegistrations _ _) _) as [t2|e2 t2] eqn:H2; [|done].
  intros [= <-]. cbn [structureLoot biomeLoot]. split; intros Hin.
  - destruct (biomeRegistrations_elem trinketId _ _ _ Hin) as (e & He & <- & <-).
    by apply (registerEach_new _ _ _ _ _ Hb H1).
  - destruct (structureRegistrations_elem trinketId _ _ _ Hin) as (e & He & <- & <-).
    by apply (registerEach_new _ _ _ _ _ Hs H2).
Qed.

Lemma X16_witness :
  tables_unique initial_registry
  ∧ registerTrinketLoot "dorios:ring" sample_trinket initial_registry
    = Normal (state_of (registerTrinketLoot "dorios:ring" sample_trinket initial_registry))
  ∧ ("minecraft:desert", 0.25%float) ∈ biomeTargets sample_trinket
  ∧ offers (biomeLoot (state_of (registerTrinketLoot "dorios:ring" sample_trinket
                                   initial_registry))
              !! "minecraft:desert") "dorios:ring" 0.25%float.
Proof.
  assert (registerTrinketLoot "dorios:ring" sample_trinket initial_registry
          = Normal (state_of (registerTrinketLoot "dorios:ring" sample_trinket
                                initial_registry))) as Hn.
  { vm_compute. reflexivity. }
  assert (("minecraft:desert", 0.25%float) ∈ biomeTargets sample_trinket) as Hin.
  { vm_compute. left. }
  split; [exact initial_registry_unique|]. split; [exact Hn|]. split; [exact Hin|].
  exact (proj1 (X16_registerTrinketLoot_offers "dorios:ring" sample_trinket
                  initial_registry _ "minecraft:desert" 0.25%float
                  initial_registry_unique Hn) Hin).
Defined.

Lemma X4_witness :
  (∀ k : nat, PrimFloat.leb 0%float (randomDraws sample_world k) = true
              ∧ PrimFloat.ltb (randomDraws sample_world k) 1%float = true)
  ∧ containers sample_world
      !! (dim_id (dimension sample_chest), location sample_chest) = Some []
  ∧ ((∀ i c, (i, c) ∈ [("minecraft:gold_ingot", 1%float)] → PrimFloat.leb 1%float c = true) →
     containers (injectLoot [("minecraft:gold_ingot", 1%float)] sample_chest sample_world).2
       !! (dim_id (dimension sample_chest), location sample_chest)
     = Some ([] ++ ((fun e => mkItemStack e.1 1) <$> [("minecraft:gold_ingot", 1%float)]))%list).
Proof.
  assert (∀ k : nat, PrimFloat.leb 0%float (randomDraws sample_world k) = true
                     ∧ PrimFloat.ltb (randomDraws sample_world k) 1%float = true) as H.
  { intros k. split; reflexivity. }
  assert (containers sample_world
            !! (dim_id (dimension sample_chest), location sample_chest) = Some []) as Hc.
  { vm_compute. reflexivity. }
  split; [exact H|]. split; [exact Hc|].
  exact (proj1 (X4_injectLoot_certain_and_impossible
                  [("minecraft:gold_ingot", 1%float)] sample_chest sample_world [] H Hc)).
Defined.

Lemma X7_witness :
  (canInjectChest sample_chest sample_world).1 = true
  ∧ resolve initial_registry sample_chest sample_world
    = markChestOpened sample_chest sample_world.
Proof.
  assert ((canInjectChest sample_chest sample_world).1 = true) as H.
  { vm_compute. reflexivity. }
  split; [exact H|].
  refine (X7_resolve_without_loot initial_registry sample_chest sample_world H _ _).
  - vm_compute. reflexivity.
  - vm_compute. reflexivity.
Defined.

Lemma X9_witness :
  block_typeId sample_chest = "minecraft:chest"
  ∧ tracked (location sample_chest)
      (subscriber sample_registry (PlayerInteractWithBlock sample_chest) sample_world).2.
Proof.
  split; [reflexivity|].
  exact (proj1 (proj1 (X9_subscriber_tracks sample_registry sample_chest sample_world)
                  eq_refl)).
Defined.

(** ** Reset and the region partition *)

Lemma tracking_key_event e : tracking_key (event_key e) = true.
Proof. by destruct e. Qed.

Lemma resetChestTracking_rest w :
  containers (resetChestTracking w).2 = containers w
  ∧ randomDraws (resetChestTracking w).2 = randomDraws w
  ∧ randomCursor (resetChestTracking w).2 = randomCursor w.
Proof. by rewrite resetChestTracking_run. Qed.

(** X17. [resetChestTracking] is idempotent and absorbs marks: resetting
    twice gives the world of resetting once, and a mark followed by a reset
    gives the world of the reset alone.  Inventories and the random stream are
    not touched. *)
Theorem X17_reset_idempotent_absorbs (e : TrackingEvent) (w : World) :
  resetChestTracking (resetChestTracking w).2 = resetChestTracking w
  ∧ resetChestTracking (play e w).2 = resetChestTracking w
  ∧ containers (resetChestTracking w).2 = containers w
  ∧ randomDraws (resetChestTracking w).2 = randomDraws w
  ∧ randomCursor (resetChestTracking w).2 = randomCursor w.
Proof.
  split; [|split; [|apply resetChestTracking_rest]].
  - rewrite (surjective_pairing (resetChestTracking (resetChestTracking w).2)).
    rewrite (surjective_pairing (resetChestTracking w)) at 3.
    f_equal; [by destruct (resetChestTracking _).1, (resetChestTracking w).1|].
    apply World_eq; try (by rewrite ?(proj1 (resetChestTracking_rest _)),
      ?(proj1 (proj2 (resetChestTracking_rest _))),
      ?(proj2 (proj2 (resetChestTracking_rest _)))).
    apply map_eq. intros k. rewrite !lookup_after_reset. by destruct (tracking_key k).
  - rewrite (surjective_pairing (resetChestTracking (play e w).2)).
    rewrite (surjective_pairing (resetChestTracking w)).
    f_equal; [by destruct (resetChestTracking _).1, (resetChestTracking w).1|].
    apply World_eq; try (by rewrite ?(proj1 (resetChestTracking_rest _)),
      ?(proj1 (proj2 (resetChestTracking_rest _))),
      ?(proj2 (proj2 (resetChestTracking_rest _))),
      ?(proj1 (play_rest _ _)), ?(proj1 (proj2 (play_rest _ _))),
      ?(proj2 (proj2 (play_rest _ _)))).
    apply map_eq. intros k. rewrite !lookup_after_reset, play_lookup.
    destruct (tracking_key k) eqn:Hk; [done|].
    rewrite decide_False; [done|]. intros ->. by rewrite tracking_key_event in Hk.
Qed.

Lemma partitioned_dynamicProperties w w' :
  dynamicProperties w = dynamicProperties w' → partitioned w → partitioned w'.
Proof.
  intros H Hp pos s. rewrite <-!(chestSet_dynamicProperties _ _ _ _ H). apply Hp.
Qed.

Lemma partitioned_markChestOpened b w :
  partitioned w → partitioned (markChestOpened b w).2.
Proof.
  intros Hp pos s. rewrite placed_after_markChestOpened, opened_after_markChestOpened.
  destruct (decide (region_of pos = region_of (location b))) as [Hr|Hr]; [|apply Hp].
  intros [H|H]; [apply Hp; by left|].
  apply elem_of_union in H as [H|H]; [|apply Hp; by right].
  apply elem_of_singleton in H. by exists (location b).
Qed.

Lemma partitioned_markChestPlaced b w :
  partitioned w → partitioned (markChestPlaced b w).2.
Proof.
  intros Hp pos s. rewrite opened_after_markChestPlaced, placed_after_markChestPlaced.
  destruct (decide (region_of pos = region_of (location b))) as [Hr|Hr]; [|apply Hp].
  intros [H|H]; [|apply Hp; by right].
  apply elem_of_union in H as [H|H]; [|apply Hp; by left].
  apply elem_of_singleton in H. by exists (location b).
Qed.

Lemma partitioned_subscriber reg e w :
  partitioned w → partitioned (subscriber reg e w).2.
Proof.
  intros Hp. destruct e as [b|b]; cbn [subscriber].
  - unfold onPlayerInteractWithBlock. destruct (decide _); [|done].
    destruct (canInjectChest b w).1 eqn:Hok.
    + apply (partitioned_dynamicProperties (markChestOpened b w).2).
      * rewrite resolve_eligible by done. by rewrite injectLoot_dynamicProperties.
      * by apply partitioned_markChestOpened.
    + by rewrite resolve_ineligible.
  - unfold onPlayerPlaceBlock. destruct (decide _); [|done].
    by apply partitioned_markChestPlaced.
Qed.

(** X18. The store stays partitioned by region: starting without tracking
    data, after any interaction and placement events every regional set holds
    only keys of positions of its own 256 by 256 region. *)
Theorem X18_store_partitioned (reg : Registry) (events : list WorldEvent) (w : World) :
  dynamicProperties w = ∅ →
  partitioned (for_of events (subscriber reg) w).2.
Proof.
  intros Hw.
  assert (partitioned w) as Hp.
  { intros pos s. unfold chestSet. rewrite Hw, !lookup_empty. cbn [default].
    intros [H|H]; by apply elem_of_empty in H. }
  clear Hw. revert w Hp. induction events as [|e events IH]; intros w Hp; [done|].
  cbn [for_of]. unfold bind. apply IH. by apply partitioned_subscriber.
Qed.

Lemma X18_witness :
  dynamicProperties sample_world = ∅
  ∧ partitioned (for_of [PlayerPlaceBlock other_chest; PlayerInteractWithBlock sample_chest]
                        (subscriber sample_registry) sample_world).2.
Proof.
  split; [reflexivity|].
  exact (X18_store_partitioned sample_registry
           [PlayerPlaceBlock other_chest; PlayerInteractWithBlock sample_chest]
           sample_world eq_refl).
Defined.

(** ** Registrations that start from a duplicate-free list *)

(** X19. For an id without a table that is no inherited name, registrations
    whose first list names no item twice all complete, and the stored table
    names no item twice; each stored entry is one of the registered entries as
    it was given (chances are never summed), and no registered entry beats the
    stored entry of its item.  On a further registration the entry kept for an
    item is the stored one unless an incoming entry has a strictly greater
    chance, so a tie keeps the stored entry. *)
Theorem X19_registration_keeps_best
    (id : string) (first : list LootEntry) (later : list (list LootEntry))
    (table : gmap string (list LootEntry)) :
  table !! id = None →
  inherited id = false →
  NoDup (item <$> first) →
  ∃ table' stored,
    registerAll id (first :: later) table = Normal table'
    ∧ table' !! id = Some stored
    ∧ NoDup (item <$> stored)
    ∧ (∀ k, k ∈ stored → k ∈ concat (first :: later))
    ∧ (∀ e, e ∈ concat (first :: later) →
         ∃ k, k ∈ stored ∧ item k = item e
              ∧ PrimFloat.ltb (chance k) (chance e) = false)
    ∧ (∀ loot i, entryFor i (mergeRegistered stored loot)
                 = fold_left (challenge i) loot (entryFor i stored))
    ∧ (∀ p e, p ∈ stored → item e = item p →
         entryFor (item p) (mergeRegistered stored [e])
         = Some (if PrimFloat.ltb (chance p) (chance e) then e else p)).
Proof.
  intros Hfresh Hi Hnd. unfold registerAll.
  rewrite forEach_cons, (registerLoot_None _ _ _ Hfresh Hi). cbn [andThen].
  destruct (registerAll_best id later (<[id := first]> table) first first)
    as (table' & stored & Hr & Hs & Hn & Hsub & Hmax).
  { by rewrite lookup_insert_eq. }
  { by apply best_of_first. }
  exists table', stored. split; [exact Hr|]. split; [done|]. split; [done|].
  split; [done|]. split; [done|]. split.
  - intros loot i. by apply entryFor_merge.
  - intros p e Hp Hie. rewrite entryFor_merge by done.
    rewrite (entryFor_elem _ _ Hn Hp). cbn [fold_left]. unfold challenge.
    rewrite decide_True by done. by destruct (PrimFloat.ltb _ _).
Qed.

Lemma X19_witness :
  (∅ : gmap string (list LootEntry)) !! "minecraft:plains" = None
  ∧ inherited "minecraft:plains" = false
  ∧ NoDup (item <$> [mkLootEntry "x" 0.2%float None])
  ∧ ∃ table' stored,
      registerAll "minecraft:plains"
        [[mkLootEntry "x" 0.2%float None]; [mkLootEntry "x" 0.5%float None]] ∅
      = Normal table'
      ∧ table' !! "minecraft:plains" = Some stored
      ∧ NoDup (item <$> stored).
Proof.
  assert (NoDup (item <$> [mkLootEntry "x" 0.2%float None])) as Hnd.
  { apply NoDup_singleton. }
  split; [apply lookup_empty|]. split; [reflexivity|]. split; [exact Hnd|].
  destruct (X19_registration_keeps_best "minecraft:plains"
              [mkLootEntry "x" 0.2%float None] [[mkLootEntry "x" 0.5%float None]] ∅
              (lookup_empty _) eq_refl Hnd) as (table' & stored & Hr & Hs & Hn & _).
  exists table', stored. split; [exact Hr|]. split; [exact Hs|exact Hn].
Defined.
